(** * Estimating pi by quantum phase estimation: the notebook's own code

    A shallow embedding of the code cells of
    [notebooks/ch-demos/piday-code.ipynb]: the two gate-placement helpers
    [qft_dagger] and [qpe_pre], the job runner [run_job] and the driver
    [get_pi_estimate] with its post-processing of the measured counts.

    Conventions.
    - Python [int] is [Z].
    - Python [float] is the rational it denotes ([Q]); the arithmetic
      of the notebook is carried out exactly, binary64 rounding is looked
      at separately at the end of the file.
    - A circuit object is the log of the gate-placement calls made on it,
      in call order, together with its two register sizes.  The argument
      validation of the quantum SDK is not part of the notebook and is not
      modelled.
    - The SDK calls made by [run_job] are opaque: they are fields of a
      record [SDK], they act on an abstract world and may raise. *)

From Stdlib Require Import ZArith QArith Qpower Qabs Qreals List String Ascii Bool Lia.
From Stdlib Require Import Reals Machin Lra.
From Stdlib Require Import Floats.SpecFloat.
Import ListNotations.

Local Open Scope Z_scope.

(** ** Python prelude *)

Module Py.

(** [range(n)]: 0, 1, ..., n-1; empty when [n <= 0]. *)
Definition range (n : Z) : list Z := map Z.of_nat (seq 0 (Z.to_nat n)).

(** [range(a, b)]. *)
Definition range2 (a b : Z) : list Z := map (fun i => a + i) (range (b - a)).

(** [reversed(xs)]. *)
Definition reversed {A} (xs : list A) : list A := rev xs.

(** [for x in xs: body], the loop state is threaded through. *)
Definition for_ {A S} (xs : list A) (body : A -> S -> S) (s : S) : S :=
  fold_left (fun st x => body x st) xs s.

(** [float(i)] for an [int]. *)
Definition float (i : Z) : Q := inject_Z i.

(** [2**e]: an [int] for [e >= 0], a [float] otherwise; in both cases the
    rational [2^e]. *)
Definition pow2 (e : Z) : Q := Qpower (2 # 1) e.

(** [int(x)] for a [float]: truncation toward zero. *)
Definition int (x : Q) : Z := Z.quot (Qnum x) (Zpos (Qden x)).

(** [numpy.pi], the binary64 number 0x400921FB54442D18. *)
Definition np_pi : Q := 884279719003555 # 281474976710656.

End Py.

(** ** The circuit object *)

(** A gate parameter is whatever Python value the notebook passes:
    the [int] 1 in [qpe_pre], a [float] in [qft_dagger]. *)
Inductive param : Type :=
| PInt (z : Z)
| PFloat (q : Q).

Inductive instruction : Type :=
| H (qubit : Z)
| X (qubit : Z)
| CP (theta : param) (control target : Z)
| Swap (qubit1 qubit2 : Z)
| Barrier (qubits : list Z)
| Measure (qubit cbit : Z).

Record QuantumCircuit : Type := mkCircuit {
  num_qubits : Z;
  num_clbits : Z;
  data : list instruction
}.

(** [QuantumCircuit(nq, nc)] *)
Definition new_circuit (nq nc : Z) : QuantumCircuit := mkCircuit nq nc [].

Definition append (i : instruction) (c : QuantumCircuit) : QuantumCircuit :=
  mkCircuit (num_qubits c) (num_clbits c) (data c ++ [i]).

Module Circ.
Definition h (q : Z) := append (H q).
Definition x (q : Z) := append (X q).
Definition cp (theta : param) (control target : Z) :=
  append (CP theta control target).
Definition swap (q1 q2 : Z) := append (Swap q1 q2).

(** [circ.h(range(n))]: one gate per qubit of the argument, in order. *)
Definition h_each (qs : list Z) (c : QuantumCircuit) : QuantumCircuit :=
  Py.for_ qs h c.

(** [circ.barrier()] with no argument spans every qubit. *)
Definition barrier (c : QuantumCircuit) : QuantumCircuit :=
  append (Barrier (Py.range (num_qubits c))) c.

(** [circ.measure(qs, cs)]: qubit and bit arguments are paired up. *)
Definition measure (qs cs : list Z) (c : QuantumCircuit) : QuantumCircuit :=
  Py.for_ (combine qs cs) (fun qc => append (Measure (fst qc) (snd qc))) c.
End Circ.

(** ** The gate-placement helpers *)

(** <<
def qft_dagger(circ_, n_qubits):
    for qubit in range(int(n_qubits/2)):
        circ_.swap(qubit, n_qubits-qubit-1)
    for j in range(0,n_qubits):
        for m in range(j):
            circ_.cp(-np.pi/float(2**(j-m)), m, j)
        circ_.h(j)
>> *)
Definition qft_dagger (circ_ : QuantumCircuit) (n_qubits : Z) : QuantumCircuit :=
  let circ_ :=
    Py.for_ (Py.range (Py.int (Py.float n_qubits / Py.float 2)))
      (fun qubit c => Circ.swap qubit (n_qubits - qubit - 1) c) circ_ in
  Py.for_ (Py.range2 0 n_qubits)
    (fun j c =>
       let c :=
         Py.for_ (Py.range j)
           (fun m c' =>
              Circ.cp (PFloat ((- Py.np_pi) / Py.float (2 ^ (j - m)))%Q) m j c') c in
       Circ.h j c)
    circ_.

(** <<
def qpe_pre(circ_, n_qubits):
    circ_.h(range(n_qubits))
    circ_.x(n_qubits)

    for x in reversed(range(n_qubits)):
        for _ in range(2**(n_qubits-1-x)):
            circ_.cp(1, n_qubits-1-x, n_qubits)
>> *)
Definition qpe_pre (circ_ : QuantumCircuit) (n_qubits : Z) : QuantumCircuit :=
  let circ_ := Circ.h_each (Py.range n_qubits) circ_ in
  let circ_ := Circ.x n_qubits circ_ in
  Py.for_ (Py.reversed (Py.range n_qubits))
    (fun x c =>
       Py.for_ (Py.range (2 ^ (n_qubits - 1 - x)))
         (fun _ c' => Circ.cp (PInt 1) (n_qubits - 1 - x) n_qubits c') c)
    circ_.

(** ** Exceptions and the SDK *)

(** What a call can raise: an exception of the SDK (of an abstract type [E]),
    or one of the two built-in exceptions the post-processing can run into. *)
Inductive exn (E : Type) : Type :=
| SdkError (e : E)
| ZeroDivisionError
| ValueError.
Arguments SdkError {E} e.
Arguments ZeroDivisionError {E}.
Arguments ValueError {E}.

(** A pure computation that returns or raises. *)
Definition result (E A : Type) : Type := (exn E + A)%type.

(** A computation acting on the world [W] (the SDK session, the backend, its
    random generator) that returns or raises. *)
Definition M (W E A : Type) : Type := W -> result E A * W.

Definition ret {W E A} (a : A) : M W E A := fun w => (inr a, w).

Definition bind {W E A B} (m : M W E A) (k : A -> M W E B) : M W E B :=
  fun w => match m w with
           | (inr a, w') => k a w'
           | (inl e, w') => (inl e, w')
           end.

(** A pure step inside a stateful computation. *)
Definition lift {W E A} (r : result E A) : M W E A := fun w => (r, w).

Declare Scope py_scope.
Delimit Scope py_scope with py.
Notation "x <- m ;; k" := (bind m (fun x => k))
  (at level 61, m at next level, right associativity) : py_scope.
Notation "m ;;; k" := (bind m (fun _ => k))
  (at level 61, right associativity) : py_scope.

(** The mapping from bit-string to observed count that [get_counts] returns:
    the items of the dict in iteration order; keys are pairwise distinct. *)
Definition Counts : Type := list (string * Z).

Record SDK : Type := mkSDK {
  World : Type;
  Err : Type;
  Backend : Type;
  Transpiled : Type;
  Qobj : Type;
  Job : Type;
  Result : Type;
  (** [transpile(circ, backend, optimization_level=...)] *)
  transpile : QuantumCircuit -> Backend -> Z -> M World Err Transpiled;
  (** [assemble(t_circ, shots=...)] *)
  assemble : Transpiled -> Z -> M World Err Qobj;
  (** [backend.run(qobj)] *)
  backend_run : Backend -> Qobj -> M World Err Job;
  (** [job_monitor(job)] *)
  job_monitor : Job -> M World Err unit;
  (** [job.result()] *)
  job_result : Job -> M World Err Result;
  (** [result.get_counts()] *)
  get_counts : Result -> M World Err Counts;
  (** the notebook's global [simulator = Aer.get_backend('qasm_simulator')] *)
  simulator : Backend
}.

(** ** Post-processing primitives *)

Module Post.

(** [max(counts, key=counts.get)]: iterating over a dict yields its keys in
    order and [counts.get] of a key is the value stored with it; the first
    key is the initial maximum and a later key replaces it only when its
    value is strictly greater.  [ValueError] on an empty mapping. *)
Fixpoint max_from (best : string * Z) (rest : Counts) : string :=
  match rest with
  | [] => fst best
  | kv :: rest' =>
      if snd best <? snd kv then max_from kv rest' else max_from best rest'
  end.

Definition max_key {E} (counts : Counts) : result E string :=
  match counts with
  | [] => inl ValueError
  | kv :: rest => inr (max_from kv rest)
  end.

(** [int(s, 2)] on the keys a counts mapping has: a non-empty string of the
    characters 0 and 1, most significant bit first.  Anything else is a
    [ValueError] here (the sign, prefix, underscore and blank forms that
    [int] also reads do not occur in a bit-string key and are left out). *)
Definition bit_of_ascii (a : ascii) : option Z :=
  if Ascii.eqb a "0" then Some 0
  else if Ascii.eqb a "1" then Some 1
  else None.

Fixpoint int2_from (acc : Z) (s : string) : option Z :=
  match s with
  | EmptyString => Some acc
  | String a s' =>
      match bit_of_ascii a with
      | Some b => int2_from (2 * acc + b) s'
      | None => None
      end
  end.

Definition int2 {E} (s : string) : result E Z :=
  match s with
  | EmptyString => inl ValueError
  | _ => match int2_from 0 s with
         | Some m => inr m
         | None => inl ValueError
         end
  end.

(** [a / b] with a float result: [ZeroDivisionError] when [b] is zero. *)
Definition truediv {E} (a b : Q) : result E Q :=
  if Qeq_bool b 0 then inl ZeroDivisionError else inr (a / b)%Q.

End Post.

(** ** Running a job and estimating pi *)

Section Notebook.

Variable sdk : SDK.

Local Open Scope py_scope.

(** <<
def run_job(circ, backend, shots=1000, optimization_level=0):
  t_circ = transpile(circ, backend, optimization_level=optimization_level)
  qobj = assemble(t_circ, shots=shots)
  job = backend.run(qobj)
  job_monitor(job)
  return job.result().get_counts()
>> *)
Definition run_job (circ : QuantumCircuit) (backend : Backend sdk)
           (shots optimization_level : Z) : M (World sdk) (Err sdk) Counts :=
  t_circ <- transpile sdk circ backend optimization_level ;;
  qobj <- assemble sdk t_circ shots ;;
  job <- backend_run sdk backend qobj ;;
  job_monitor sdk job ;;;
  res <- job_result sdk job ;;
  get_counts sdk res.

(** <<
def get_pi_estimate(n_qubits):
  circ = QuantumCircuit(n_qubits + 1, n_qubits)
  qpe_pre(circ, n_qubits)
  circ.barrier()
  qft_dagger(circ, n_qubits)
  circ.barrier()
  circ.measure(range(n_qubits), range(n_qubits))
  counts = run_job(circ, backend=simulator, shots=10000, optimization_level=0)
  max_counts_result = max(counts, key=counts.get)
  max_counts_result = int(max_counts_result, 2)
  theta = max_counts_result/2**n_qubits
  return (1./(2*theta))
>> *)
Definition get_pi_estimate (n_qubits : Z) : M (World sdk) (Err sdk) Q :=
  let circ := new_circuit (n_qubits + 1) n_qubits in
  let circ := qpe_pre circ n_qubits in
  let circ := Circ.barrier circ in
  let circ := qft_dagger circ n_qubits in
  let circ := Circ.barrier circ in
  let circ := Circ.measure (Py.range n_qubits) (Py.range n_qubits) circ in
  counts <- run_job circ (simulator sdk) 10000 0 ;;
  max_counts_result <- lift (Post.max_key counts) ;;
  max_counts_result <- lift (Post.int2 max_counts_result) ;;
  theta <- lift (Post.truediv (Py.float max_counts_result) (Py.pow2 n_qubits)) ;;
  lift (Post.truediv 1 (2 * theta)%Q).

End Notebook.

(** The circuit [get_pi_estimate] hands to [run_job]. *)
Definition pi_circuit (n_qubits : Z) : QuantumCircuit :=
  let circ := new_circuit (n_qubits + 1) n_qubits in
  let circ := qpe_pre circ n_qubits in
  let circ := Circ.barrier circ in
  let circ := qft_dagger circ n_qubits in
  let circ := Circ.barrier circ in
  Circ.measure (Py.range n_qubits) (Py.range n_qubits) circ.

(** The two closing lines of [get_pi_estimate], on the measured integer. *)
Definition solve_for_pi {E} (n_qubits max_counts_result : Z) : result E Q :=
  match Post.truediv (Py.float max_counts_result) (Py.pow2 n_qubits) with
  | inr theta => Post.truediv 1 (2 * theta)%Q
  | inl e => inl e
  end.

(** Everything [get_pi_estimate] does after [run_job] has returned. *)
Definition pi_from_counts {E} (n_qubits : Z) (counts : Counts) : result E Q :=
  match Post.max_key counts with
  | inr s => match Post.int2 s with
             | inr m => solve_for_pi n_qubits m
             | inl e => inl e
             end
  | inl e => inl e
  end.

(** ** The patterns the helpers are meant to lay out *)

(** Appending a block of instructions to the log. *)
Definition extend (block : list instruction) (c : QuantumCircuit) : QuantumCircuit :=
  mkCircuit (num_qubits c) (num_clbits c) (data c ++ block).

(** The qubits an instruction acts on. *)
Definition qubits_of (i : instruction) : list Z :=
  match i with
  | H q | X q => [q]
  | CP _ c t => [c; t]
  | Swap a b => [a; b]
  | Barrier qs => qs
  | Measure q _ => [q]
  end.

Definition is_cp (i : instruction) : bool :=
  match i with CP _ _ _ => true | _ => false end.

(** Written from the description of [qpe_pre]: a Hadamard on each of the
    qubits 0..n-1, an X on qubit n, then for c = 0, 1, ..., n-1 a run of
    2^c gates cp(1) from control c to target n. *)
Definition qpe_pre_pattern (n : Z) : list instruction :=
  map H (Py.range n) ++ [X n] ++
  flat_map (fun c => repeat (CP (PInt 1) c n) (Z.to_nat (2 ^ c))) (Py.range n).

(** Written from the description of [qft_dagger]: floor(n/2) swaps of q
    with n-1-q, then for j = 0..n-1 the gates cp(-pi/2^(j-m)) from control m
    to target j for m = 0..j-1 followed by a Hadamard on j. *)
Definition qft_dagger_pattern (n : Z) : list instruction :=
  map (fun q => Swap q (n - 1 - q)) (Py.range (n / 2)) ++
  flat_map
    (fun j =>
       map (fun m => CP (PFloat ((- Py.np_pi) / Py.float (2 ^ (j - m)))%Q) m j)
           (Py.range j)
       ++ [H j])
    (Py.range n).


(** ** Vocabulary of the properties *)

(** The qubits read out by the [Measure] instructions of a log, in order. *)
Definition measured_qubits (l : list instruction) : list Z :=
  flat_map (fun i => match i with Measure q _ => [q] | _ => [] end) l.

(** An instruction that reads out no qubit. *)
Definition no_measure (i : instruction) : Prop :=
  match i with Measure _ _ => False | _ => True end.

(** A bit-string made of zeros only. *)
Fixpoint all_zeros_from (s : string) : bool :=
  match s with
  | EmptyString => true
  | String a s' => Ascii.eqb a "0" && all_zeros_from s'
  end.

Definition all_zeros (s : string) : bool :=
  match s with
  | EmptyString => false
  | _ => all_zeros_from s
  end.

(** [s] is the one key of [counts] observed most often: it is there, and
    every other key has a strictly smaller count. *)
Definition unique_mode (counts : Counts) (s : string) : Prop :=
  exists c, In (s, c) counts /\
            forall s' c', In (s', c') counts -> s' <> s -> c' < c.

(** [sum(counts.values())] *)
Definition total (counts : Counts) : Z :=
  fold_right (fun kv acc => snd kv + acc) 0 counts.

(** Well-formed counts for a circuit with [clbits] classical bits run for
    [shots] shots: one character per classical bit in every key, natural
    numbers as counts, and as many observations as shots. *)
Definition counts_for (clbits shots : Z) (counts : Counts) : Prop :=
  Forall (fun kv => Z.of_nat (String.length (fst kv)) = clbits /\ 0 <= snd kv)
         counts
  /\ total counts = shots.

(** Modelled from the spec: the backend and its result object belong to the
    quantum SDK, which is not part of the repository.  The data model gives
    its invariants (bit-string length equals qubit count; measured counts
    are non-negative integers summing to shot count); here they are stated
    of the counts at the end of the six SDK calls that [run_job] chains, for
    the circuit and the shots that went in. *)
Definition counts_contract (sdk : SDK) : Prop :=
  forall circ backend shots opt w0 t_circ w1 qobj w2 job w3 u w4 res w5 counts w6,
    transpile sdk circ backend opt w0 = (inr t_circ, w1) ->
    assemble sdk t_circ shots w1 = (inr qobj, w2) ->
    backend_run sdk backend qobj w2 = (inr job, w3) ->
    job_monitor sdk job w3 = (inr u, w4) ->
    job_result sdk job w4 = (inr res, w5) ->
    get_counts sdk res w5 = (inr counts, w6) ->
    counts_for (num_clbits circ) shots counts.

(** One of the SDK calls of [run_job] raises [e], the calls before it
    having returned; [w'] is the world the failing call leaves behind. *)
Inductive sdk_failure (sdk : SDK) (circ : QuantumCircuit) (backend : Backend sdk)
          (shots opt : Z) (w : World sdk) (e : exn (Err sdk)) (w' : World sdk)
  : Prop :=
| fail_transpile :
    transpile sdk circ backend opt w = (inl e, w') ->
    sdk_failure sdk circ backend shots opt w e w'
| fail_assemble t_circ w1 :
    transpile sdk circ backend opt w = (inr t_circ, w1) ->
    assemble sdk t_circ shots w1 = (inl e, w') ->
    sdk_failure sdk circ backend shots opt w e w'
| fail_run t_circ w1 qobj w2 :
    transpile sdk circ backend opt w = (inr t_circ, w1) ->
    assemble sdk t_circ shots w1 = (inr qobj, w2) ->
    backend_run sdk backend qobj w2 = (inl e, w') ->
    sdk_failure sdk circ backend shots opt w e w'
| fail_monitor t_circ w1 qobj w2 job w3 :
    transpile sdk circ backend opt w = (inr t_circ, w1) ->
    assemble sdk t_circ shots w1 = (inr qobj, w2) ->
    backend_run sdk backend qobj w2 = (inr job, w3) ->
    job_monitor sdk job w3 = (inl e, w') ->
    sdk_failure sdk circ backend shots opt w e w'
| fail_result t_circ w1 qobj w2 job w3 u w4 :
    transpile sdk circ backend opt w = (inr t_circ, w1) ->
    assemble sdk t_circ shots w1 = (inr qobj, w2) ->
    backend_run sdk backend qobj w2 = (inr job, w3) ->
    job_monitor sdk job w3 = (inr u, w4) ->
    job_result sdk job w4 = (inl e, w') ->
    sdk_failure sdk circ backend shots opt w e w'
| fail_get_counts t_circ w1 qobj w2 job w3 u w4 res w5 :
    transpile sdk circ backend opt w = (inr t_circ, w1) ->
    assemble sdk t_circ shots w1 = (inr qobj, w2) ->
    backend_run sdk backend qobj w2 = (inr job, w3) ->
    job_monitor sdk job w3 = (inr u, w4) ->
    job_result sdk job w4 = (inr res, w5) ->
    get_counts sdk res w5 = (inl e, w') ->
    sdk_failure sdk circ backend shots opt w e w'.

(** ** A small SDK to run the notebook against

    The world counts the SDK calls made so far.  [canned_sdk answer] refuses
    a circuit with a negative number of classical bits and a negative number
    of shots, and otherwise answers a job from [answer], which sees the
    world, the number of classical bits and the shots.  [faulty_sdk k]
    raises at the call made in world [k]. *)

Definition canned_sdk (answer : nat -> Z -> Z -> Counts) : SDK :=
  {| World := nat; Err := nat; Backend := unit;
     Transpiled := QuantumCircuit; Qobj := QuantumCircuit * Z;
     Job := QuantumCircuit * Z; Result := QuantumCircuit * Z;
     transpile := fun circ _ _ w =>
                    if num_clbits circ <? 0 then (inl (SdkError 1%nat), S w)
                    else (inr circ, S w);
     assemble := fun t_circ shots w =>
                   if shots <? 0 then (inl (SdkError 2%nat), S w)
                   else (inr (t_circ, shots), S w);
     backend_run := fun _ qobj w => (inr qobj, S w);
     job_monitor := fun _ w => (inr tt, S w);
     job_result := fun job w => (inr job, S w);
     get_counts := fun res w =>
                     (inr (answer w (num_clbits (fst res)) (snd res)), S w);
     simulator := tt |}.

(** All shots land on the string of [clbits] zeros. *)
Definition zeros_only (_ : nat) (clbits shots : Z) : Counts :=
  [(string_of_list_ascii (repeat "0"%char (Z.to_nat clbits)), shots)].

(** Two outcomes split 7000 to 3000, whatever was asked. *)
Definition mostly_01 (_ : nat) (_ _ : Z) : Counts :=
  [("01"%string, 7000); ("11"%string, 3000)].

(** Counts that depend on the world the job was submitted in. *)
Definition by_world (w : nat) (_ _ : Z) : Counts :=
  if Nat.even w then [("01"%string, 7000); ("11"%string, 3000)]
  else [("11"%string, 2500); ("01"%string, 5000); ("00"%string, 2500)].

Definition faulty_sdk (k : nat) : SDK :=
  let call {A} (a : A) : M nat nat A :=
    fun w => if Nat.eqb w k then (inl (SdkError w), S w) else (inr a, S w) in
  {| World := nat; Err := nat; Backend := unit;
     Transpiled := unit; Qobj := unit; Job := unit; Result := unit;
     transpile := fun _ _ _ => call tt;
     assemble := fun _ _ => call tt;
     backend_run := fun _ _ => call tt;
     job_monitor := fun _ => call tt;
     job_result := fun _ => call tt;
     get_counts := fun _ => call [("01"%string, 7); ("11"%string, 3)];
     simulator := tt |}.

(** ** The run of the notebook *)

(** [nqs = list(range(2,12+1))], the qubit counts the notebook goes through. *)
Definition nqs : list Z := Py.range2 2 (12 + 1).

(** The phase that is estimated: the gate is p(1), so 2*pi*theta = 1. *)
Definition phase : R := (/ (2 * PI))%R.

(** Modelled from the spec: the backend that produces the measurements is
    not part of the repository.  The expected most frequent measurement
    under the noiseless-simulation assumption follows the notebook's text:
    phase estimation on [n] qubits returns an estimate of 2^n*theta, and
    without noise the outcome seen most often is the [n]-bit integer [m]
    whose fraction [m / 2^n] lies nearest to the phase. *)
Definition expected_measurement (n m : Z) : Prop :=
  0 <= m < 2 ^ n /\
  forall k : Z,
    0 <= k < 2 ^ n ->
    (Rabs (IZR m / IZR (2 ^ n) - phase) <= Rabs (IZR k / IZR (2 ^ n) - phase))%R.

(** The measured integers behind the estimates the recorded run prints:
    2.0, 4.0, 2.6666666666666665, 3.2, 3.2, 3.2, 3.1219512195121952,
    3.1604938271604937 and three times 3.1411042944785277. *)
Definition recorded_measurement (n : Z) : Z :=
  match n with
  | 2 => 1 | 3 => 1 | 4 => 3 | 5 => 5 | 6 => 10 | 7 => 20
  | 8 => 41 | 9 => 81 | 10 => 163 | 11 => 326 | 12 => 652
  | _ => 0
  end.

(** ** The same arithmetic in binary64

    Python floats are IEEE 754 binary64 numbers.  The closing lines of
    [get_pi_estimate] are repeated here on the binary64 operations of the
    Standard Library's [SpecFloat], to measure what the exact reading of
    the floats above leaves out. *)

Module B64.

Definition prec : Z := 53.
Definition emax : Z := 1024.

(** An integer as it stands, before any rounding. *)
Definition raw (z : Z) : spec_float :=
  match z with
  | Z0 => S754_zero false
  | Zpos p => S754_finite false p 0
  | Zneg p => S754_finite true p 0
  end.

(** [float(i)]: the integer rounded to nearest, ties to even. *)
Definition of_int (i : Z) : spec_float := binary_normalize prec emax i 0 false.

Definition mul : spec_float -> spec_float -> spec_float := SFmul prec emax.
Definition div : spec_float -> spec_float -> spec_float := SFdiv prec emax.

Definition is_zero (f : spec_float) : bool :=
  match f with S754_zero _ => true | _ => false end.

(** [a / b] on two ints: the quotient rounded once. *)
Definition int_truediv (a b : Z) : option spec_float :=
  if b =? 0 then None else Some (div (raw a) (raw b)).

(** [x / y] on two floats; [None] stands for [ZeroDivisionError]. *)
Definition truediv (x y : spec_float) : option spec_float :=
  if is_zero y then None else Some (div x y).

(** The decimal literal [digits / 10^places] read as a float. *)
Definition of_decimal (digits places : Z) : spec_float :=
  div (raw digits) (raw (10 ^ places)).

(** Same float, bit for bit. *)
Definition same (f g : spec_float) : bool :=
  match f, g with
  | S754_zero s, S754_zero s' => Bool.eqb s s'
  | S754_infinity s, S754_infinity s' => Bool.eqb s s'
  | S754_finite s m e, S754_finite s' m' e' =>
      Bool.eqb s s' && Pos.eqb m m' && Z.eqb e e'
  | _, _ => false
  end.

(** The rational a finite float stands for. *)
Definition to_Q (f : spec_float) : option Q :=
  match f with
  | S754_zero _ => Some 0%Q
  | S754_finite s m e =>
      Some ((if s then -1 else 1) * inject_Z (Zpos m) * Qpower (2 # 1) e)%Q
  | _ => None
  end.

End B64.

(** [theta = max_counts_result/2**n_qubits; return (1./(2*theta))] for
    [n_qubits >= 0], where [2**n_qubits] is an int. *)
Definition solve_for_pi_b64 (n_qubits max_counts_result : Z) : option spec_float :=
  match B64.int_truediv max_counts_result (2 ^ n_qubits) with
  | Some theta => B64.truediv (B64.of_int 1) (B64.mul (B64.of_int 2) theta)
  | None => None
  end.

(** What the recorded run prints for 2, 3, ..., 12 qubits, as digits and
    number of decimal places. *)
Definition printed_estimates : list (Z * Z) :=
  [(20, 1); (40, 1); (26666666666666665, 16); (32, 1); (32, 1); (32, 1);
   (31219512195121952, 16); (31604938271604937, 16);
   (31411042944785277, 16); (31411042944785277, 16); (31411042944785277, 16)].

(** The binary64 estimate is a finite float within relative distance 2^-53
    of the exact estimate, and it is the float of [2**n / (2*m)]. *)
Definition b64_close (n m : Z) : bool :=
  match solve_for_pi_b64 n m, B64.int_truediv (2 ^ n) (2 * m) with
  | Some f, Some g =>
      match B64.to_Q f with
      | Some q =>
          let exact := (1 / (2 * (Py.float m / Py.pow2 n)))%Q in
          Qle_bool (Qabs (q - exact)) (exact * Qpower (2 # 1) (-53))
          && B64.same f g
      | None => false
      end
  | _, _ => false
  end.

(** ** Proof automation *)

(** Case analysis on the sign under every absolute value in sight. *)
Ltac split_Rabs :=
  unfold Rabs in *;
  repeat match goal with
         | |- context [Rcase_abs ?x] => destruct (Rcase_abs x)
         | H : context [Rcase_abs ?x] |- _ => destruct (Rcase_abs x)
         end.


(** ** The cell that runs the estimates *)

(** <<
nqs = list(range(2,12+1))
pi_estimates = []
for nq in nqs:
    thisnq_pi_estimate = get_pi_estimate(nq)
    pi_estimates.append(thisnq_pi_estimate)
    print(f"{nq} qubits, pi ~ {thisnq_pi_estimate}")
>>
    The two things the loop changes besides the SDK's world are the global
    list [pi_estimates] and the printed lines; a printed line is kept as the
    pair of numbers it shows.  An exception leaves the cell at once, with
    what the earlier rounds appended and printed still in place. *)
Record Cell : Type := mkCell {
  pi_estimates : list Q;
  printed : list (Z * Q)
}.

Fixpoint estimate_loop (sdk : SDK) (todo : list Z) (st : Cell) (w : World sdk)
  : option (exn (Err sdk)) * Cell * World sdk :=
  match todo with
  | [] => (None, st, w)
  | nq :: rest =>
      match get_pi_estimate sdk nq w with
      | (inr thisnq_pi_estimate, w') =>
          estimate_loop sdk rest
            (mkCell (pi_estimates st ++ [thisnq_pi_estimate])
                    (printed st ++ [(nq, thisnq_pi_estimate)]))
            w'
      | (inl e, w') => (Some e, st, w')
      end
  end.

Definition estimate_cell (sdk : SDK) (w : World sdk)
  : option (exn (Err sdk)) * Cell * World sdk :=
  estimate_loop sdk nqs (mkCell [] []) w.

(** [get_pi_estimate] returns for each of [todo] in turn, from world [w] to
    world [w'], with the estimates [ests]. *)
Inductive all_return (sdk : SDK) : list Z -> World sdk -> list Q -> World sdk -> Prop :=
| all_return_nil w : all_return sdk [] w [] w
| all_return_cons nq rest w est w1 ests w' :
    get_pi_estimate sdk nq w = (inr est, w1) ->
    all_return sdk rest w1 ests w' ->
    all_return sdk (nq :: rest) w (est :: ests) w'.

(** ** More vocabulary *)



Definition is_measure (i : instruction) : bool :=
  match i with Measure _ _ => true | _ => false end.

(** The classical bits an instruction writes. *)
Definition clbits_of (i : instruction) : list Z :=
  match i with Measure _ c => [c] | _ => [] end.

(** A string of the characters 0 and 1. *)
Fixpoint is_bitstring (s : string) : bool :=
  match s with
  | EmptyString => true
  | String a s' =>
      (Ascii.eqb a "0" || Ascii.eqb a "1") && is_bitstring s'
  end.

(** Every outcome of [counts] with one more bit, a zero, at its end. *)
Definition pad_zero (counts : Counts) : Counts :=
  map (fun kv => ((fst kv ++ "0")%string, snd kv)) counts.
(** * Proofs *)

Example qpe_pre_2 :
  data (qpe_pre (new_circuit 3 2) 2) =
  [H 0; H 1; X 2; CP (PInt 1) 0 2; CP (PInt 1) 1 2; CP (PInt 1) 1 2].
Proof. reflexivity. Qed.

Example qft_dagger_3 :
  data (qft_dagger (new_circuit 4 3) 3) =
  [Swap 0 2; H 0;
   CP (PFloat ((- Py.np_pi) / Py.float 2)%Q) 0 1; H 1;
   CP (PFloat ((- Py.np_pi) / Py.float 4)%Q) 0 2;
   CP (PFloat ((- Py.np_pi) / Py.float 2)%Q) 1 2; H 2].
Proof. reflexivity. Qed.

(** ** Loops that only append *)

Lemma extend_nil c : extend [] c = c.
Proof. destruct c; unfold extend; simpl; now rewrite app_nil_r. Qed.

Lemma extend_extend a b c : extend b (extend a c) = extend (a ++ b) c.
Proof. unfold extend; simpl; now rewrite app_assoc. Qed.

Lemma append_extend i c : append i c = extend [i] c.
Proof. reflexivity. Qed.

Lemma for_extend {A} (f : A -> list instruction) body xs :
  (forall x c, body x c = extend (f x) c) ->
  forall c, Py.for_ xs body c = extend (flat_map f xs) c.
Proof.
  intros Hbody. unfold Py.for_.
  induction xs as [|x xs IH]; intros c; simpl.
  - now rewrite extend_nil.
  - rewrite IH, Hbody, extend_extend. reflexivity.
Qed.

Lemma flat_map_singleton {A B} (f : A -> B) xs :
  flat_map (fun x => [f x]) xs = map f xs.
Proof. induction xs; simpl; congruence. Qed.

Lemma flat_map_const {A B} (b : B) (xs : list A) :
  flat_map (fun _ => [b]) xs = repeat b (List.length xs).
Proof. induction xs; simpl; congruence. Qed.

(** ** Facts about [range] *)

Lemma range_length n : List.length (Py.range n) = Z.to_nat n.
Proof. unfold Py.range. now rewrite length_map, length_seq. Qed.

Lemma range_In n i : In i (Py.range n) <-> 0 <= i < n.
Proof.
  unfold Py.range. rewrite in_map_iff. split.
  - intros [k [<- Hk]]. apply in_seq in Hk. lia.
  - intros Hi. exists (Z.to_nat i). split; [lia|]. apply in_seq. lia.
Qed.

Lemma range_nonpos n : n <= 0 -> Py.range n = [].
Proof.
  intros Hn. unfold Py.range. replace (Z.to_nat n) with 0%nat by lia. reflexivity.
Qed.

Lemma range_succ n : 0 <= n -> Py.range (n + 1) = Py.range n ++ [n].
Proof.
  intros Hn. unfold Py.range.
  replace (Z.to_nat (n + 1)) with (S (Z.to_nat n)) by lia.
  rewrite seq_S, map_app. simpl. f_equal. f_equal. lia.
Qed.

Lemma range2_0 n : Py.range2 0 n = Py.range n.
Proof.
  unfold Py.range2. rewrite Z.sub_0_r.
  rewrite <- (map_id (Py.range n)) at 2. apply map_ext. intros; lia.
Qed.

Lemma reversed_range_mirror_nat k :
  map (fun x => Z.of_nat k - 1 - x) (rev (Py.range (Z.of_nat k))) =
  Py.range (Z.of_nat k).
Proof.
  induction k as [|k IH].
  - reflexivity.
  - replace (Z.of_nat (S k)) with (Z.of_nat k + 1) by lia.
    rewrite range_succ by lia.
    rewrite rev_app_distr. simpl.
    replace (Z.of_nat k + 1 - 1 - Z.of_nat k) with 0 by lia.
    transitivity (0 :: map (fun y => y + 1) (Py.range (Z.of_nat k))).
    + f_equal.
      transitivity (map (fun y => y + 1)
                      (map (fun x => Z.of_nat k - 1 - x) (rev (Py.range (Z.of_nat k))))).
      * rewrite map_map. apply map_ext. intros; lia.
      * now rewrite IH.
    + rewrite <- range_succ by lia. unfold Py.range.
      replace (Z.to_nat (Z.of_nat k + 1)) with (S k) by lia.
      rewrite Nat2Z.id. simpl. f_equal.
      rewrite <- seq_shift, !map_map. apply map_ext. intros; lia.
Qed.

(** [reversed(range(n))] read through [x |-> n-1-x] is [range(n)] again. *)
Lemma reversed_range_mirror n :
  map (fun x => n - 1 - x) (Py.reversed (Py.range n)) = Py.range n.
Proof.
  destruct (Z.le_gt_cases n 0) as [Hn|Hn].
  - rewrite (range_nonpos n Hn). reflexivity.
  - unfold Py.reversed.
    pose proof (reversed_range_mirror_nat (Z.to_nat n)) as Hk.
    rewrite Z2Nat.id in Hk by lia. exact Hk.
Qed.

Lemma flat_map_map {A B C} (g : A -> B) (f : B -> list C) xs :
  flat_map f (map g xs) = flat_map (fun x => f (g x)) xs.
Proof. induction xs; simpl; congruence. Qed.

(** ** [qpe_pre] *)

Lemma cp_run_extend g k c :
  Py.for_ (Py.range k) (fun (_ : Z) c' => append g c') c =
  extend (repeat g (Z.to_nat k)) c.
Proof.
  rewrite (for_extend (fun _ => [g])) by (intros; apply append_extend).
  now rewrite flat_map_const, range_length.
Qed.

Lemma qpe_pre_extend circ n : qpe_pre circ n = extend (qpe_pre_pattern n) circ.
Proof.
  unfold qpe_pre, qpe_pre_pattern, Circ.h_each, Circ.x.
  rewrite (for_extend (fun q => [H q]) Circ.h)
    by (intros; apply append_extend).
  rewrite flat_map_singleton, append_extend, extend_extend.
  rewrite (for_extend
             (fun x => repeat (CP (PInt 1) (n - 1 - x) n)
                              (Z.to_nat (2 ^ (n - 1 - x)))))
    by (intros; apply cp_run_extend).
  rewrite extend_extend, <- app_assoc. do 3 f_equal.
  rewrite <- (flat_map_map (fun x => n - 1 - x)
                (fun c => repeat (CP (PInt 1) c n) (Z.to_nat (2 ^ c)))).
  now rewrite reversed_range_mirror.
Qed.

Lemma filter_cp_repeat th c t k :
  filter is_cp (repeat (CP th c t) k) = repeat (CP th c t) k.
Proof. induction k; simpl; congruence. Qed.

Lemma filter_cp_H qs : filter is_cp (map H qs) = [].
Proof. induction qs; simpl; auto. Qed.

Lemma cp_runs_total n k :
  Z.of_nat
    (List.length
       (filter is_cp
          (flat_map (fun c => repeat (CP (PInt 1) c n) (Z.to_nat (2 ^ c)))
                    (Py.range (Z.of_nat k))))) = 2 ^ Z.of_nat k - 1.
Proof.
  induction k as [|k IH].
  - reflexivity.
  - replace (Z.of_nat (S k)) with (Z.of_nat k + 1) by lia.
    rewrite range_succ by lia.
    rewrite flat_map_app, filter_app, length_app, Nat2Z.inj_add, IH.
    simpl. rewrite app_nil_r, filter_cp_repeat, repeat_length.
    rewrite Z2Nat.id by (apply Z.pow_nonneg; lia).
    rewrite Z.pow_add_r by lia. lia.
Qed.

(** ** [qft_dagger] *)

Lemma int_half n : Py.int (Py.float n / Py.float 2) = Z.quot n 2.
Proof.
  unfold Py.int, Py.float. simpl. now rewrite Z.mul_1_r.
Qed.

Lemma qft_dagger_shape circ n :
  qft_dagger circ n =
  extend
    (map (fun q => Swap q (n - q - 1)) (Py.range (Z.quot n 2)) ++
     flat_map
       (fun j =>
          map (fun m => CP (PFloat ((- Py.np_pi) / Py.float (2 ^ (j - m)))%Q) m j)
              (Py.range j) ++ [H j])
       (Py.range n))
    circ.
Proof.
  unfold qft_dagger. rewrite int_half.
  rewrite (for_extend (fun q => [Swap q (n - q - 1)])
             (fun qubit c => Circ.swap qubit (n - qubit - 1) c))
    by (intros; apply append_extend).
  rewrite range2_0.
  rewrite (for_extend
             (fun j =>
                map (fun m => CP (PFloat ((- Py.np_pi) / Py.float (2 ^ (j - m)))%Q) m j)
                    (Py.range j) ++ [H j])).
  - now rewrite extend_extend, flat_map_singleton.
  - intros j c.
    rewrite (for_extend
               (fun m => [CP (PFloat ((- Py.np_pi) / Py.float (2 ^ (j - m)))%Q) m j]))
      by (intros; apply append_extend).
    unfold Circ.h. now rewrite append_extend, extend_extend, flat_map_singleton.
Qed.

Lemma qft_dagger_extend circ n :
  0 <= n -> qft_dagger circ n = extend (qft_dagger_pattern n) circ.
Proof.
  intros Hn. rewrite qft_dagger_shape. unfold qft_dagger_pattern.
  rewrite Z.quot_div_nonneg by lia. do 2 f_equal.
  apply map_ext. intros q. f_equal. lia.
Qed.

Lemma qft_dagger_pattern_local n :
  Forall (fun i => Forall (fun q => 0 <= q < n) (qubits_of i))
         (qft_dagger_pattern n).
Proof.
  unfold qft_dagger_pattern. apply Forall_app. split.
  - apply Forall_forall. intros i Hi.
    apply in_map_iff in Hi. destruct Hi as [q [<- Hq]].
    apply range_In in Hq. simpl.
    pose proof (Z.div_mod n 2 ltac:(lia)) as Hdm.
    pose proof (Z.mod_pos_bound n 2 ltac:(lia)) as Hmod.
    repeat constructor; lia.
  - apply Forall_forall. intros i Hi.
    apply in_flat_map in Hi. destruct Hi as [j [Hj Hi]].
    apply range_In in Hj. apply in_app_iff in Hi. destruct Hi as [Hi|Hi].
    + apply in_map_iff in Hi. destruct Hi as [m [<- Hm]].
      apply range_In in Hm. simpl. repeat constructor; lia.
    + destruct Hi as [<-|[]]. simpl. repeat constructor; lia.
Qed.

(** ** [get_pi_estimate] in two halves *)

Lemma get_pi_estimate_split sdk n w :
  get_pi_estimate sdk n w =
  match run_job sdk (pi_circuit n) (simulator sdk) 10000 0 w with
  | (inr counts, w') => (pi_from_counts n counts, w')
  | (inl e, w') => (inl e, w')
  end.
Proof.
  unfold get_pi_estimate, pi_circuit, pi_from_counts, solve_for_pi.
  unfold bind at 1.
  destruct (run_job sdk _ (simulator sdk) 10000 0 w) as [[e|counts] w']; [reflexivity|].
  unfold bind, lift.
  destruct (Post.max_key counts) as [e|s]; [reflexivity|].
  destruct (Post.int2 s) as [e|m]; [reflexivity|].
  destruct (Post.truediv (Py.float m) (Py.pow2 n)) as [e|theta]; reflexivity.
Qed.

Lemma run_job_failure sdk circ backend shots opt w e w' :
  sdk_failure sdk circ backend shots opt w e w' ->
  run_job sdk circ backend shots opt w = (inl e, w').
Proof.
  intros Hf. unfold run_job, bind.
  destruct Hf as
    [H1 | tc w1 H1 H2 | tc w1 q w2 H1 H2 H3 | tc w1 q w2 j w3 H1 H2 H3 H4
     | tc w1 q w2 j w3 u w4 H1 H2 H3 H4 H5
     | tc w1 q w2 j w3 u w4 r w5 H1 H2 H3 H4 H5 H6];
    repeat match goal with
           | Heq : ?t = _ |- context [?t] => rewrite Heq
           end; reflexivity.
Qed.

Lemma run_job_success sdk circ backend shots opt w counts w' :
  run_job sdk circ backend shots opt w = (inr counts, w') ->
  exists t_circ w1 qobj w2 job w3 u w4 res w5,
    transpile sdk circ backend opt w = (inr t_circ, w1) /\
    assemble sdk t_circ shots w1 = (inr qobj, w2) /\
    backend_run sdk backend qobj w2 = (inr job, w3) /\
    job_monitor sdk job w3 = (inr u, w4) /\
    job_result sdk job w4 = (inr res, w5) /\
    get_counts sdk res w5 = (inr counts, w').
Proof.
  unfold run_job, bind. intros Hrun.
  destruct (transpile sdk circ backend opt w) as [[e|tc] w1] eqn:H1; [discriminate|].
  destruct (assemble sdk tc shots w1) as [[e|q] w2] eqn:H2; [discriminate|].
  destruct (backend_run sdk backend q w2) as [[e|j] w3] eqn:H3; [discriminate|].
  destruct (job_monitor sdk j w3) as [[e|u] w4] eqn:H4; [discriminate|].
  destruct (job_result sdk j w4) as [[e|r] w5] eqn:H5; [discriminate|].
  exists tc, w1, q, w2, j, w3, u, w4, r, w5. repeat split; assumption.
Qed.

(** ** The measured integer *)

Lemma pow2_nonzero n : ~ (Py.pow2 n == 0)%Q.
Proof. unfold Py.pow2. apply Qpower_not_0. discriminate. Qed.

Lemma pow2_nonneg_exp n : 0 <= n -> (Py.pow2 n == inject_Z (2 ^ n))%Q.
Proof.
  intros Hn. unfold Py.pow2. symmetry.
  exact (Zpower_Qpower 2 n Hn).
Qed.

Lemma truediv_ok {E} a b :
  ~ (b == 0)%Q -> @Post.truediv E a b = inr (a / b)%Q.
Proof.
  intros Hb. unfold Post.truediv.
  destruct (Qeq_bool b 0) eqn:Hz; [|reflexivity].
  apply Qeq_bool_eq in Hz. contradiction.
Qed.

Lemma truediv_zero {E} a b :
  (b == 0)%Q -> @Post.truediv E a b = inl ZeroDivisionError.
Proof.
  intros Hb. unfold Post.truediv.
  apply Qeq_bool_iff in Hb. now rewrite Hb.
Qed.

Lemma solve_for_pi_nonzero {E} n m :
  m <> 0 ->
  @solve_for_pi E n m =
  inr (1 / (2 * (Py.float m / Py.pow2 n)))%Q.
Proof.
  intros Hm. unfold solve_for_pi.
  rewrite truediv_ok by apply pow2_nonzero.
  apply truediv_ok.
  intros Hz.
  assert (Hm' : ~ (Py.float m == 0)%Q).
  { unfold Py.float. intros Hq.
    apply (inject_Z_injective m 0) in Hq. contradiction. }
  pose proof (pow2_nonzero n) as Hp.
  apply Hm'.
  setoid_replace (Py.float m) with ((2 * (Py.float m / Py.pow2 n)) * (Py.pow2 n / 2))%Q
    by (field; exact Hp).
  rewrite Hz. ring.
Qed.

Lemma solve_for_pi_zero {E} n : @solve_for_pi E n 0 = inl ZeroDivisionError.
Proof.
  unfold solve_for_pi.
  rewrite truediv_ok by apply pow2_nonzero.
  apply truediv_zero. unfold Py.float.
  pose proof (pow2_nonzero n) as Hp. field. exact Hp.
Qed.

Lemma solve_for_pi_returns {E} n m est :
  @solve_for_pi E n m = inr est -> m <> 0.
Proof.
  intros Hs ->. rewrite solve_for_pi_zero in Hs. discriminate.
Qed.

(** The closed form of the estimate, for a non-negative qubit count. *)
Lemma estimate_closed_form n m :
  0 <= n -> m <> 0 ->
  (1 / (2 * (Py.float m / Py.pow2 n)) == inject_Z (2 ^ n) / inject_Z (2 * m))%Q.
Proof.
  intros Hn Hm. rewrite (pow2_nonneg_exp n Hn). unfold Py.float.
  rewrite inject_Z_mult.
  assert (Hm' : ~ (inject_Z m == 0)%Q).
  { intros Hq. apply (inject_Z_injective m 0) in Hq. contradiction. }
  assert (Hp : ~ (inject_Z (2 ^ n) == 0)%Q).
  { intros Hq. apply (inject_Z_injective (2 ^ n) 0) in Hq.
    pose proof (Z.pow_pos_nonneg 2 n ltac:(lia) Hn). lia. }
  field. split; assumption.
Qed.

(** ** Reading a bit-string *)

Lemma int2_from_zeros s acc :
  all_zeros_from s = true -> Post.int2_from acc s = Some (acc * 2 ^ Z.of_nat (String.length s)).
Proof.
  revert acc. induction s as [|a s IH]; intros acc Hz;
    cbn [Post.int2_from all_zeros_from String.length] in *.
  - f_equal. change (2 ^ Z.of_nat 0) with 1. lia.
  - apply andb_true_iff in Hz. destruct Hz as [Ha Hs].
    unfold Post.bit_of_ascii. rewrite Ha. rewrite IH by assumption.
    f_equal.
    replace (Z.of_nat (S (String.length s))) with (Z.succ (Z.of_nat (String.length s)))
      by lia.
    rewrite Z.pow_succ_r by lia. ring.
Qed.

Lemma int2_all_zeros {E} s : all_zeros s = true -> @Post.int2 E s = inr 0.
Proof.
  destruct s as [|a s]; [discriminate|].
  unfold all_zeros, Post.int2. intros Hz.
  now rewrite (int2_from_zeros _ 0 Hz).
Qed.

(** ** The most frequent key *)

Lemma max_from_In best rest :
  exists c, In (Post.max_from best rest, c) (best :: rest) /\
            forall kv, In kv (best :: rest) -> snd kv <= c.
Proof.
  revert best. induction rest as [|kv rest IH]; intros best; simpl.
  - exists (snd best). split.
    + left. now destruct best.
    + intros kv [<-|[]]; lia.
  - destruct (snd best <? snd kv) eqn:Hlt.
    + apply Z.ltb_lt in Hlt.
      destruct (IH kv) as [c [Hin Hmax]]. exists c. split.
      * right. exact Hin.
      * intros kv' [<-|Hkv'].
        -- specialize (Hmax kv (or_introl eq_refl)). lia.
        -- now apply Hmax.
    + apply Z.ltb_ge in Hlt.
      destruct (IH best) as [c [Hin Hmax]]. exists c. split.
      * destruct Hin as [Hin|Hin]; [left; exact Hin | right; right; exact Hin].
      * intros kv' [<-|[<-|Hkv']].
        -- apply Hmax. now left.
        -- specialize (Hmax best (or_introl eq_refl)). lia.
        -- apply Hmax. now right.
Qed.

Lemma max_key_unique_mode {E} counts s :
  unique_mode counts s -> @Post.max_key E counts = inr s.
Proof.
  intros [c [Hin Huniq]].
  destruct counts as [|best rest]; [destruct Hin|].
  simpl. f_equal.
  destruct (max_from_In best rest) as [c' [Hin' Hmax]].
  destruct (string_dec (Post.max_from best rest) s) as [Heq|Hne]; [exact Heq|].
  specialize (Huniq _ _ Hin' Hne).
  specialize (Hmax _ Hin). simpl in Hmax. lia.
Qed.

(** ** The circuit of [get_pi_estimate] *)

Lemma measured_qubits_none l : Forall no_measure l -> measured_qubits l = [].
Proof.
  induction 1 as [|i l Hi _ IH]; [reflexivity|].
  unfold measured_qubits in *. simpl. rewrite IH.
  destruct i; simpl in *; auto; contradiction.
Qed.

Lemma measured_qubits_app a b :
  measured_qubits (a ++ b) = measured_qubits a ++ measured_qubits b.
Proof. apply flat_map_app. Qed.

Lemma qpe_pre_pattern_no_measure n : Forall no_measure (qpe_pre_pattern n).
Proof.
  apply Forall_forall. intros i Hi. unfold qpe_pre_pattern in Hi.
  apply in_app_iff in Hi. destruct Hi as [Hi|[<-|Hi]].
  - apply in_map_iff in Hi. destruct Hi as [q [<- _]]. exact I.
  - exact I.
  - apply in_flat_map in Hi. destruct Hi as [c [_ Hi]].
    apply repeat_spec in Hi. subst i. exact I.
Qed.

Lemma qft_dagger_no_measure circ n :
  exists block, qft_dagger circ n = extend block circ /\ Forall no_measure block.
Proof.
  eexists. split; [apply qft_dagger_shape|].
  apply Forall_forall. intros i Hi.
  apply in_app_iff in Hi. destruct Hi as [Hi|Hi].
  - apply in_map_iff in Hi. destruct Hi as [q [<- _]]. exact I.
  - apply in_flat_map in Hi. destruct Hi as [j [_ Hi]].
    apply in_app_iff in Hi. destruct Hi as [Hi|[<-|[]]]; [|exact I].
    apply in_map_iff in Hi. destruct Hi as [m [<- _]]. exact I.
Qed.

Lemma combine_diag {A} (l : list A) : map fst (combine l l) = l.
Proof. induction l; simpl; congruence. Qed.

Lemma measured_qubits_measure qs :
  measured_qubits (map (fun qc => Measure (fst qc) (snd qc)) (combine qs qs)) = qs.
Proof.
  unfold measured_qubits. rewrite flat_map_map. simpl.
  rewrite flat_map_singleton. apply combine_diag.
Qed.

Lemma no_measure_not_In q c l : Forall no_measure l -> ~ In (Measure q c) l.
Proof.
  intros Hl Hin. rewrite Forall_forall in Hl. exact (Hl _ Hin).
Qed.

(** The whole log of the circuit: state preparation, barrier, inverse
    Fourier transform, barrier, measurements. *)
Lemma pi_circuit_data n :
  exists block,
    Forall no_measure block /\
    (0 <= n -> block = qft_dagger_pattern n) /\
    pi_circuit n =
    mkCircuit (n + 1) n
      (qpe_pre_pattern n ++ [Barrier (Py.range (n + 1))] ++ block ++
       [Barrier (Py.range (n + 1))] ++
       map (fun qc => Measure (fst qc) (snd qc))
           (combine (Py.range n) (Py.range n))).
Proof.
  exists (map (fun q => Swap q (n - q - 1)) (Py.range (Z.quot n 2)) ++
          flat_map
            (fun j =>
               map (fun m => CP (PFloat ((- Py.np_pi) / Py.float (2 ^ (j - m)))%Q) m j)
                   (Py.range j) ++ [H j])
            (Py.range n)).
  split; [|split].
  - destruct (qft_dagger_no_measure (new_circuit 0 0) n) as [block [Heq Hblock]].
    rewrite qft_dagger_shape in Heq. unfold extend in Heq. simpl in Heq.
    injection Heq as Heq. rewrite Heq. exact Hblock.
  - intros Hn.
    pose proof (qft_dagger_extend (new_circuit 0 0) n Hn) as Heq.
    rewrite qft_dagger_shape in Heq. unfold extend in Heq. simpl in Heq.
    injection Heq as Heq. exact Heq.
  - unfold pi_circuit, Circ.measure, Circ.barrier.
    rewrite (for_extend (fun qc => [Measure (fst qc) (snd qc)]))
      by (intros; apply append_extend).
    rewrite qft_dagger_shape, qpe_pre_extend, !append_extend.
    rewrite flat_map_singleton.
    unfold extend, new_circuit. cbn [data num_qubits num_clbits app].
    f_equal. rewrite <- !app_assoc. reflexivity.
Qed.

Lemma pi_circuit_sizes n :
  num_qubits (pi_circuit n) = n + 1 /\ num_clbits (pi_circuit n) = n.
Proof.
  destruct (pi_circuit_data n) as [block [_ [_ ->]]]. split; reflexivity.
Qed.

Lemma pi_circuit_measured n : measured_qubits (data (pi_circuit n)) = Py.range n.
Proof.
  destruct (pi_circuit_data n) as [block [Hblock [_ ->]]].
  cbn [data]. rewrite !measured_qubits_app.
  rewrite (measured_qubits_none _ (qpe_pre_pattern_no_measure n)).
  rewrite (measured_qubits_none _ Hblock).
  rewrite measured_qubits_measure. reflexivity.
Qed.

Lemma pi_circuit_measure_In n q c :
  In (Measure q c) (data (pi_circuit n)) -> q = c /\ 0 <= q < n.
Proof.
  destruct (pi_circuit_data n) as [block [Hblock [_ ->]]].
  cbn [data]. intros Hin.
  rewrite !in_app_iff in Hin. cbn [In] in Hin.
  destruct Hin as [Hin|[[Hin|[]]|[Hin|[[Hin|[]]|Hin]]]]; try discriminate;
    try (exfalso; exact (no_measure_not_In _ _ _ (qpe_pre_pattern_no_measure n) Hin));
    try (exfalso; exact (no_measure_not_In _ _ _ Hblock Hin)).
  apply in_map_iff in Hin. destruct Hin as [[q' c'] [[= -> ->] Hin]].
  assert (Hdiag : forall (l : list Z) a b, In (a, b) (combine l l) -> a = b /\ In a l).
  { induction l as [|x l IH]; simpl; intros a b Hab; [contradiction|].
    destruct Hab as [[= -> ->]|Hab]; [split; auto|].
    destruct (IH _ _ Hab). split; auto. }
  destruct (Hdiag _ _ _ Hin) as [-> Hq]. apply range_In in Hq. split; [reflexivity|lia].
Qed.

(** ** The small SDKs *)

Lemma canned_zeros_contract : counts_contract (canned_sdk zeros_only).
Proof.
  intros circ backend shots opt w0 t_circ w1 qobj w2 job w3 u w4 res w5 counts w6.
  simpl.
  destruct (num_clbits circ <? 0) eqn:Hc; [discriminate|].
  destruct (shots <? 0) eqn:Hs; [discriminate|].
  intros [= <- <-] [= <- <-] [= <- <-] _ [= <- <-] [= <- <-].
  apply Z.ltb_ge in Hc. apply Z.ltb_ge in Hs.
  unfold counts_for, zeros_only. simpl. split.
  - constructor; [|constructor]. simpl. split; [|exact Hs].
    rewrite <- (Z2Nat.id (num_clbits circ)) at 2 by exact Hc.
    f_equal. generalize (Z.to_nat (num_clbits circ)) as k.
    induction k; simpl; congruence.
  - lia.
Qed.

(** * The properties of the notebook's code *)





(** C4.  For [n >= 1], [qpe_pre] appends to the circuit, in this order, a
    Hadamard on each of the qubits 0..n-1, an X on qubit n and, for the
    controls c = 0, 1, ..., n-1 in increasing order, 2^c gates cp(1) from
    control c to target n; that makes 2^n - 1 controlled-phase gates. *)
Theorem qpe_pre_lays_out_pattern :
  forall circ n,
    1 <= n ->
    qpe_pre circ n = extend (qpe_pre_pattern n) circ /\
    Z.of_nat (List.length (filter is_cp (qpe_pre_pattern n))) = 2 ^ n - 1.
Proof.
  intros circ n Hn. split; [apply qpe_pre_extend|].
  unfold qpe_pre_pattern.
  rewrite filter_app, filter_cp_H. simpl.
  pose proof (cp_runs_total n (Z.to_nat n)) as Htot.
  rewrite Z2Nat.id in Htot by lia. exact Htot.
Qed.

Lemma qpe_pre_lays_out_pattern_witness :
  qpe_pre (new_circuit 4 3) 3 = extend (qpe_pre_pattern 3) (new_circuit 4 3) /\
  Z.of_nat (List.length (filter is_cp (qpe_pre_pattern 3))) = 2 ^ 3 - 1.
Proof.
  apply (qpe_pre_lays_out_pattern (new_circuit 4 3) 3). lia.
Defined.



(** C6.  With an SDK that keeps its promise about counts, the counts that
    [run_job] returns for the circuit of [get_pi_estimate n] have keys of
    length [n] (the circuit has [n] classical bits and measures the qubits
    0..n-1) and non-negative counts that add up to the 10000 shots asked
    for. *)
Theorem counts_shape :
  forall sdk n w counts w',
    counts_contract sdk ->
    run_job sdk (pi_circuit n) (simulator sdk) 10000 0 w = (inr counts, w') ->
    num_clbits (pi_circuit n) = n /\
    (forall q c, In (Measure q c) (data (pi_circuit n)) -> q = c /\ 0 <= q < n) /\
    Forall (fun kv => Z.of_nat (String.length (fst kv)) = n /\ 0 <= snd kv) counts /\
    total counts = 10000.
Proof.
  intros sdk n w counts w' Hsdk Hrun.
  destruct (pi_circuit_sizes n) as [_ Hc].
  split; [exact Hc|]. split; [apply pi_circuit_measure_In|].
  destruct (run_job_success _ _ _ _ _ _ _ _ Hrun)
    as (tc & w1 & q & w2 & j & w3 & u & w4 & r & w5 & H1 & H2 & H3 & H4 & H5 & H6).
  pose proof (Hsdk _ _ _ _ _ _ _ _ _ _ _ _ _ _ _ _ _ H1 H2 H3 H4 H5 H6) as [Hkeys Htot].
  rewrite Hc in Hkeys. split; assumption.
Qed.

Lemma counts_shape_witness :
  num_clbits (pi_circuit 2) = 2 /\
  (forall q c, In (Measure q c) (data (pi_circuit 2)) -> q = c /\ 0 <= q < 2) /\
  Forall (fun kv => Z.of_nat (String.length (fst kv)) = 2 /\ 0 <= snd kv)
         (zeros_only 5 2 10000) /\
  total (zeros_only 5 2 10000) = 10000.
Proof.
  apply (counts_shape (canned_sdk zeros_only) 2 0%nat (zeros_only 5 2 10000) 6%nat).
  - exact canned_zeros_contract.
  - reflexivity.
Defined.

(** C7.  Neither [run_job] nor [get_pi_estimate] catches anything: when one
    of the SDK calls of [run_job] (transpile, assemble, backend.run,
    job_monitor, job.result, get_counts) raises [e], [run_job] raises [e] and
    [get_pi_estimate] raises that same [e] and returns no estimate. *)
Theorem sdk_errors_propagate :
  forall sdk n w e w',
    sdk_failure sdk (pi_circuit n) (simulator sdk) 10000 0 w e w' ->
    run_job sdk (pi_circuit n) (simulator sdk) 10000 0 w = (inl e, w') /\
    get_pi_estimate sdk n w = (inl e, w').
Proof.
  intros sdk n w e w' Hfail.
  pose proof (run_job_failure _ _ _ _ _ _ _ _ Hfail) as Hrun.
  split; [exact Hrun|].
  rewrite get_pi_estimate_split, Hrun. reflexivity.
Qed.

Lemma sdk_errors_propagate_witness :
  run_job (faulty_sdk 2) (pi_circuit 1) (simulator (faulty_sdk 2)) 10000 0 0%nat =
  (inl (SdkError 2%nat), 3%nat) /\
  get_pi_estimate (faulty_sdk 2) 1 0%nat = (inl (SdkError 2%nat), 3%nat).
Proof.
  apply (sdk_errors_propagate (faulty_sdk 2) 1 0%nat (SdkError 2%nat) 3%nat).
  apply (fail_run (faulty_sdk 2) _ _ _ _ _ _ _ tt 1%nat tt 2%nat); reflexivity.
Defined.

(** C8.  When the most frequent key of the counts is a string of zeros
    (measured integer 0), [1/(2*theta)] divides by zero and
    [get_pi_estimate] raises [ZeroDivisionError] instead of returning; and
    whenever [get_pi_estimate] does return an estimate, the most frequent
    key read as a nonzero integer. *)
Theorem zero_measurement_fails :
  forall sdk n w counts w' s,
    run_job sdk (pi_circuit n) (simulator sdk) 10000 0 w = (inr counts, w') ->
    Post.max_key (E := Err sdk) counts = inr s ->
    (all_zeros s = true ->
     Post.int2 (E := Err sdk) s = inr 0 /\
     get_pi_estimate sdk n w = (inl ZeroDivisionError, w')) /\
    (forall est, get_pi_estimate sdk n w = (inr est, w') ->
                 exists m, Post.int2 (E := Err sdk) s = inr m /\ m <> 0).
Proof.
  intros sdk n w counts w' s Hrun Hmax. split.
  - intros Hz. split; [now apply int2_all_zeros|].
    rewrite get_pi_estimate_split, Hrun. unfold pi_from_counts.
    rewrite Hmax, (int2_all_zeros s Hz). now rewrite solve_for_pi_zero.
  - intros est Hest.
    rewrite get_pi_estimate_split, Hrun in Hest. unfold pi_from_counts in Hest.
    rewrite Hmax in Hest.
    destruct (Post.int2 s) as [e|m]; [discriminate|].
    exists m. split; [reflexivity|].
    injection Hest as Hest. now apply solve_for_pi_returns in Hest.
Qed.

Lemma zero_measurement_fails_witness :
  (all_zeros "00" = true ->
   Post.int2 (E := nat) "00" = inr 0 /\
   get_pi_estimate (canned_sdk zeros_only) 2 0%nat = (inl ZeroDivisionError, 6%nat)) /\
  (forall est, get_pi_estimate (canned_sdk zeros_only) 2 0%nat = (inr est, 6%nat) ->
               exists m, Post.int2 (E := nat) "00" = inr m /\ m <> 0).
Proof.
  apply (zero_measurement_fails (canned_sdk zeros_only) 2 0%nat
           (zeros_only 5 2 10000) 6%nat "00"%string).
  - reflexivity.
  - reflexivity.
Defined.

(** C9.  The circuit [get_pi_estimate n] builds has [n + 1] qubits and [n]
    classical bits, the qubits it measures are exactly 0..n-1, and no
    measurement in it reads the auxiliary qubit [n]. *)
Theorem auxiliary_qubit_not_measured :
  forall n,
    num_qubits (pi_circuit n) = n + 1 /\
    num_clbits (pi_circuit n) = n /\
    measured_qubits (data (pi_circuit n)) = Py.range n /\
    ~ In n (measured_qubits (data (pi_circuit n))) /\
    (forall q c, In (Measure q c) (data (pi_circuit n)) -> q <> n).
Proof.
  intros n. destruct (pi_circuit_sizes n) as [Hq Hc].
  split; [exact Hq|]. split; [exact Hc|]. split; [apply pi_circuit_measured|].
  split.
  - rewrite pi_circuit_measured. intros Hin. apply range_In in Hin. lia.
  - intros q c Hin ->. apply pi_circuit_measure_In in Hin. lia.
Qed.

(** C10.  The estimate depends on the counts only through their most
    frequent key: two runs for the same qubit count whose counts have the
    same unique most frequent key end in the same estimate (or the same
    exception), whatever the counts, the number of keys and the totals. *)
Theorem estimate_depends_on_mode_only :
  forall sdk n w1 w2 counts1 counts2 w1' w2' s,
    run_job sdk (pi_circuit n) (simulator sdk) 10000 0 w1 = (inr counts1, w1') ->
    run_job sdk (pi_circuit n) (simulator sdk) 10000 0 w2 = (inr counts2, w2') ->
    unique_mode counts1 s ->
    unique_mode counts2 s ->
    pi_from_counts (E := Err sdk) n counts1 = pi_from_counts n counts2 /\
    fst (get_pi_estimate sdk n w1) = fst (get_pi_estimate sdk n w2).
Proof.
  intros sdk n w1 w2 counts1 counts2 w1' w2' s Hrun1 Hrun2 Hm1 Hm2.
  assert (Hpure : pi_from_counts (E := Err sdk) n counts1 = pi_from_counts n counts2).
  { unfold pi_from_counts.
    now rewrite (max_key_unique_mode counts1 s Hm1), (max_key_unique_mode counts2 s Hm2). }
  split; [exact Hpure|].
  rewrite !get_pi_estimate_split, Hrun1, Hrun2. simpl. exact Hpure.
Qed.

Lemma mode_by_world_5 : unique_mode (by_world 5 2 10000) "01".
Proof.
  exists 5000. split; [simpl; auto|].
  intros s' c' Hin Hne. simpl in Hin.
  destruct Hin as [[= <- <-]|[[= <- <-]|[[= <- <-]|[]]]]; try lia; congruence.
Qed.

Lemma mode_by_world_6 : unique_mode (by_world 6 2 10000) "01".
Proof.
  exists 7000. split; [simpl; auto|].
  intros s' c' Hin Hne. simpl in Hin.
  destruct Hin as [[= <- <-]|[[= <- <-]|[]]]; try lia; congruence.
Qed.

Lemma estimate_depends_on_mode_only_witness :
  pi_from_counts (E := nat) 2 (by_world 5 2 10000) =
  pi_from_counts 2 (by_world 6 2 10000) /\
  fst (get_pi_estimate (canned_sdk by_world) 2 0%nat) =
  fst (get_pi_estimate (canned_sdk by_world) 2 1%nat).
Proof.
  apply (estimate_depends_on_mode_only (canned_sdk by_world) 2 0%nat 1%nat
           (by_world 5 2 10000) (by_world 6 2 10000) 6%nat 7%nat "01"%string).
  - reflexivity.
  - reflexivity.
  - exact mode_by_world_5.
  - exact mode_by_world_6.
Defined.

(** ** Numerical facts about pi *)

Section Convergence.

Local Open Scope R_scope.

Lemma PI_enclosure : 3.14159 < PI < 3.1416.
Proof.
  pose proof (PI_2_3_7_ineq 2) as [Hlo Hhi].
  unfold sum_f_R0, tg_alt, PI_2_3_7_tg, Ratan_seq in Hlo, Hhi.
  simpl in Hlo, Hhi.
  split; lra.
Qed.

Lemma phase_enclosure : 0.159154 < phase < 0.159156.
Proof.
  destruct PI_enclosure as [Hlo Hhi].
  assert (Hprod : 2 * PI * phase = 1) by (unfold phase; field; lra).
  split; nra.
Qed.

(** The nearest [n]-bit integer, for concrete [n] and [t]: [t] is within a
    half of [2^n * phase], so no other integer is as near. *)
Lemma nearest_integer (N t : Z) (x : R) :
  (0 < N)%Z ->
  IZR t - / 2 < IZR N * x < IZR t + / 2 ->
  forall k : Z,
    (Rabs (IZR k / IZR N - x) <= Rabs (IZR t / IZR N - x) -> k = t) /\
    Rabs (IZR t / IZR N - x) <= Rabs (IZR k / IZR N - x).
Proof.
  intros HN Ht k.
  assert (HNR : 0 < IZR N) by now apply IZR_lt.
  assert (Hscale : forall a, Rabs (IZR a / IZR N - x) = Rabs (IZR a - IZR N * x) / IZR N).
  { intros a. replace (IZR a / IZR N - x) with ((IZR a - IZR N * x) / IZR N)
      by (field; lra).
    unfold Rdiv. rewrite Rabs_mult, (Rabs_pos_eq (/ IZR N)); [reflexivity|].
    left. now apply Rinv_0_lt_compat. }
  rewrite !Hscale.
  assert (Hmono : forall a b, a / IZR N <= b / IZR N <-> a <= b).
  { intros a b. split; intros Hab.
    - apply (Rmult_le_reg_r (/ IZR N)); [now apply Rinv_0_lt_compat|exact Hab].
    - apply Rmult_le_compat_r; [left; now apply Rinv_0_lt_compat|exact Hab]. }
  rewrite !Hmono.
  destruct (Z.lt_trichotomy k t) as [Hlt|[Heq|Hgt]].
  - assert (IZR k <= IZR t - 1).
    { rewrite <- minus_IZR. apply IZR_le. lia. }
    split; [intros Hle; exfalso|]; split_Rabs; lra.
  - subst k. split; [reflexivity|lra].
  - assert (IZR t + 1 <= IZR k).
    { rewrite <- plus_IZR. apply IZR_le. lia. }
    split; [intros Hle; exfalso|]; split_Rabs; lra.
Qed.

Lemma recorded_is_near n :
  In n nqs ->
  IZR (recorded_measurement n) - / 2 < IZR (2 ^ n) * phase
                                     < IZR (recorded_measurement n) + / 2.
Proof.
  destruct phase_enclosure as [Hlo Hhi].
  intros Hn. vm_compute in Hn.
  repeat (destruct Hn as [<-|Hn]; [vm_compute recorded_measurement; simpl; split; lra|]).
  destruct Hn.
Qed.

Lemma nqs_pow2_pos n : In n nqs -> (0 < 2 ^ n)%Z.
Proof.
  intros Hn. apply Z.pow_pos_nonneg; [lia|].
  unfold nqs, Py.range2 in Hn. apply in_map_iff in Hn.
  destruct Hn as [i [<- Hi]]. apply range_In in Hi. lia.
Qed.

Lemma recorded_in_range n :
  In n nqs -> (0 < recorded_measurement n < 2 ^ n)%Z.
Proof.
  intros Hn. vm_compute in Hn.
  repeat (destruct Hn as [<-|Hn]; [vm_compute; split; reflexivity|]).
  destruct Hn.
Qed.

(** In the range of the notebook the expected measurement is the recorded
    one, and only that. *)
Lemma expected_recorded n :
  In n nqs -> expected_measurement n (recorded_measurement n).
Proof.
  intros Hn. split.
  - pose proof (recorded_in_range n Hn). lia.
  - intros k _.
    apply (nearest_integer (2 ^ n) (recorded_measurement n) phase
             (nqs_pow2_pos n Hn) (recorded_is_near n Hn) k).
Qed.

Lemma expected_unique n m :
  In n nqs -> expected_measurement n m -> m = recorded_measurement n.
Proof.
  intros Hn [Hm Hmin].
  pose proof (recorded_in_range n Hn) as Hr.
  apply (nearest_integer (2 ^ n) (recorded_measurement n) phase
           (nqs_pow2_pos n Hn) (recorded_is_near n Hn) m).
  apply Hmin. lia.
Qed.

(** The estimates of two consecutive qubit counts, on the recorded
    measurements. *)
Lemma recorded_estimates_approach n :
  In n nqs -> In (n + 1)%Z nqs ->
  Rabs (Q2R (1 / (2 * (Py.float (recorded_measurement (n + 1)) / Py.pow2 (n + 1)))) - PI)
  <= Rabs (Q2R (1 / (2 * (Py.float (recorded_measurement n) / Py.pow2 n))) - PI).
Proof.
  destruct PI_enclosure as [Hlo Hhi].
  intros Hn Hn1. vm_compute in Hn.
  repeat (destruct Hn as [<-|Hn];
          [ clear Hn1;
            match goal with
            | |- Rabs (Q2R ?a - PI) <= Rabs (Q2R ?b - PI) =>
                let a' := eval vm_compute in a in
                let b' := eval vm_compute in b in
                change (Rabs (Q2R a' - PI) <= Rabs (Q2R b' - PI))
            end;
            unfold Q2R; simpl; split_Rabs; lra
          | ]).
  destruct Hn as [<-|[]].
  vm_compute in Hn1.
  repeat (destruct Hn1 as [Hn1|Hn1]; [discriminate|]). destruct Hn1.
Qed.

End Convergence.

(** C2.  Over the qubit counts the notebook runs (2 to 12), with [m] the
    measurement expected of a noiseless backend for [n] qubits and [m'] the
    one for [n + 1] qubits, both estimates are returned and the one for
    [n + 1] qubits is at least as close to pi as the one for [n] qubits. *)
Theorem estimates_approach_pi :
  forall E n m m',
    In n nqs -> In (n + 1) nqs ->
    expected_measurement n m ->
    expected_measurement (n + 1) m' ->
    exists est est',
      solve_for_pi (E := E) n m = inr est /\
      solve_for_pi (E := E) (n + 1) m' = inr est' /\
      est = (1 / (2 * (Py.float m / Py.pow2 n)))%Q /\
      est' = (1 / (2 * (Py.float m' / Py.pow2 (n + 1))))%Q /\
      (Rabs (Q2R est' - PI) <= Rabs (Q2R est - PI))%R.
Proof.
  intros E n m m' Hn Hn1 Hm Hm'.
  apply (expected_unique n m Hn) in Hm.
  apply (expected_unique (n + 1) m' Hn1) in Hm'. subst m m'.
  pose proof (recorded_in_range n Hn) as Hr.
  pose proof (recorded_in_range (n + 1) Hn1) as Hr1.
  eexists. eexists.
  split; [apply solve_for_pi_nonzero; lia|].
  split; [apply solve_for_pi_nonzero; lia|].
  split; [reflexivity|]. split; [reflexivity|].
  now apply recorded_estimates_approach.
Qed.

Lemma estimates_approach_pi_witness :
  exists est est',
    solve_for_pi (E := nat) 8 41 = inr est /\
    solve_for_pi (E := nat) (8 + 1) 81 = inr est' /\
    est = (1 / (2 * (Py.float 41 / Py.pow2 8)))%Q /\
    est' = (1 / (2 * (Py.float 81 / Py.pow2 (8 + 1))))%Q /\
    (Rabs (Q2R est' - PI) <= Rabs (Q2R est - PI))%R.
Proof.
  apply (estimates_approach_pi nat 8 41 81).
  - vm_compute. tauto.
  - vm_compute. tauto.
  - exact (expected_recorded 8 ltac:(vm_compute; tauto)).
  - exact (expected_recorded 9 ltac:(vm_compute; tauto)).
Defined.

(** ** Binary64 against the exact arithmetic *)

(** On the recorded measurements the binary64 computation gives, bit for
    bit, the floats the notebook printed. *)
Lemma b64_reproduces_recorded_run :
  map (fun n => solve_for_pi_b64 n (recorded_measurement n)) nqs =
  map (fun d => Some (B64.of_decimal (fst d) (snd d))) printed_estimates.
Proof. vm_compute. reflexivity. Qed.

(** For every qubit count of the notebook and every nonzero outcome, the
    binary64 computation returns, is one rounding away from the exact
    estimate, and is the very float of [2**n / (2*m)]. *)
Lemma b64_close_on_nqs :
  forallb (fun n => forallb (fun m => b64_close n (m + 1)) (Py.range (2 ^ n - 1))) nqs
  = true.
Proof. vm_compute. reflexivity. Qed.

Lemma same_eq f g : B64.same f g = true -> f = g.
Proof.
  destruct f as [s|s| |s m e], g as [s'|s'| |s' m' e']; simpl; try discriminate.
  - intros Hs. apply Bool.eqb_prop in Hs. congruence.
  - intros Hs. apply Bool.eqb_prop in Hs. congruence.
  - intros Hs. apply andb_true_iff in Hs. destruct Hs as [Hs He].
    apply andb_true_iff in Hs. destruct Hs as [Hs Hm].
    apply Bool.eqb_prop in Hs. apply Pos.eqb_eq in Hm. apply Z.eqb_eq in He.
    congruence.
Qed.

(** X18.  In binary64, for every qubit count the notebook runs and every
    nonzero [n]-bit measurement, the closing lines of [get_pi_estimate]
    return a finite float: it is the float of [2**n / (2*m)] bit for bit and
    lies within relative distance 2^-53 of the exact estimate. *)
Lemma b64_close_to_exact n m :
  In n nqs -> 0 < m < 2 ^ n ->
  exists f q,
    solve_for_pi_b64 n m = Some f /\
    B64.int_truediv (2 ^ n) (2 * m) = Some f /\
    B64.to_Q f = Some q /\
    (Qabs (q - 1 / (2 * (Py.float m / Py.pow2 n)))
     <= 1 / (2 * (Py.float m / Py.pow2 n)) * Qpower (2 # 1) (-53))%Q.
Proof.
  intros Hn Hm.
  pose proof b64_close_on_nqs as Hall.
  rewrite forallb_forall in Hall. specialize (Hall n Hn).
  rewrite forallb_forall in Hall. specialize (Hall (m - 1)).
  replace (m - 1 + 1) with m in Hall by lia.
  assert (Hin : In (m - 1) (Py.range (2 ^ n - 1))) by (apply range_In; lia).
  specialize (Hall Hin). unfold b64_close in Hall.
  destruct (solve_for_pi_b64 n m) as [f|]; [|discriminate].
  destruct (B64.int_truediv (2 ^ n) (2 * m)) as [g|]; [|discriminate].
  destruct (B64.to_Q f) as [q|] eqn:Hq; [|discriminate].
  apply andb_true_iff in Hall. destruct Hall as [Hclose Hsame].
  apply same_eq in Hsame. subst g.
  exists f, q. split; [reflexivity|]. split; [reflexivity|]. split; [exact Hq|].
  now apply Qle_bool_iff.
Qed.

(** * Further properties of the gate-placement helpers *)



Lemma filter_repeat_none {A} (p : A -> bool) a k :
  p a = false -> filter p (repeat a k) = [].
Proof. intros Hp. induction k; simpl; [reflexivity|]. now rewrite Hp. Qed.






(** X2.  The swaps of [qft_dagger] exchange mirror positions: each one
    pairs a qubit [a] with [n-1-a] above it, and two different swaps share
    no qubit (the middle qubit of an odd register is in none). *)
Theorem qft_dagger_swaps_mirror :
  forall circ n,
    0 <= n ->
    exists block,
      data (qft_dagger circ n) = data circ ++ block /\
      forall a b a' b',
        In (Swap a b) block -> In (Swap a' b') block ->
        0 <= a < b /\ b = n - 1 - a /\ b < n /\
        (a = a' /\ b = b' \/ a <> a' /\ a <> b' /\ b <> a' /\ b <> b').
Proof.
  intros circ n Hn. exists (qft_dagger_pattern n).
  rewrite (qft_dagger_extend circ n Hn). split; [reflexivity|].
  intros a b a' b' Hin Hin'.
  assert (Hswap : forall x y,
             In (Swap x y) (qft_dagger_pattern n) ->
             0 <= x < n / 2 /\ y = n - 1 - x).
  { intros x y Hxy. unfold qft_dagger_pattern in Hxy.
    apply in_app_iff in Hxy. destruct Hxy as [Hxy|Hxy].
    - apply in_map_iff in Hxy. destruct Hxy as [q [[= <- <-] Hq]].
      apply range_In in Hq. split; [exact Hq|reflexivity].
    - apply in_flat_map in Hxy. destruct Hxy as [j [_ Hxy]].
      apply in_app_iff in Hxy. destruct Hxy as [Hxy|[Hxy|[]]]; [|discriminate].
      apply in_map_iff in Hxy. destruct Hxy as [m [Hxy _]]. discriminate. }
  destruct (Hswap _ _ Hin) as [Ha Hb]. destruct (Hswap _ _ Hin') as [Ha' Hb'].
  pose proof (Z.div_mod n 2 ltac:(lia)) as Hdm.
  pose proof (Z.mod_pos_bound n 2 ltac:(lia)) as Hmod.
  lia.
Qed.

Lemma qft_dagger_swaps_mirror_witness :
  exists block,
    data (qft_dagger (new_circuit 6 5) 5) = data (new_circuit 6 5) ++ block /\
    forall a b a' b',
      In (Swap a b) block -> In (Swap a' b') block ->
      0 <= a < b /\ b = 5 - 1 - a /\ b < 5 /\
      (a = a' /\ b = b' \/ a <> a' /\ a <> b' /\ b <> a' /\ b <> b').
Proof.
  apply (qft_dagger_swaps_mirror (new_circuit 6 5) 5). lia.
Defined.











Lemma qpe_pre_pattern_gates n i :
  In i (qpe_pre_pattern n) ->
  (exists q, i = H q /\ 0 <= q < n) \/ i = X n \/
  (exists c, i = CP (PInt 1) c n /\ 0 <= c < n).
Proof.
  unfold qpe_pre_pattern. intros Hi.
  apply in_app_iff in Hi. destruct Hi as [Hi|[<-|Hi]].
  - left. apply in_map_iff in Hi. destruct Hi as [q [<- Hq]].
    exists q. split; [reflexivity|now apply range_In].
  - right. now left.
  - right. right. apply in_flat_map in Hi. destruct Hi as [c [Hc Hi]].
    apply repeat_spec in Hi. exists c. split; [exact Hi|now apply range_In].
Qed.



(** * Further properties of the circuit of [get_pi_estimate] *)

Lemma measure_diag qs :
  map (fun qc : Z * Z => Measure (fst qc) (snd qc)) (combine qs qs) =
  map (fun i => Measure i i) qs.
Proof. induction qs as [|q qs IH]; simpl; congruence. Qed.

Lemma pi_circuit_layout_nonneg n :
  0 <= n ->
  pi_circuit n =
  mkCircuit (n + 1) n
    ((qpe_pre_pattern n ++ [Barrier (Py.range (n + 1))] ++
      qft_dagger_pattern n ++ [Barrier (Py.range (n + 1))]) ++
     map (fun i => Measure i i) (Py.range n)).
Proof.
  intros Hn. destruct (pi_circuit_data n) as [block [_ [Hblock ->]]].
  rewrite (Hblock Hn), measure_diag. f_equal.
  rewrite <- !app_assoc. reflexivity.
Qed.

(** X7.  Every index the circuit of [get_pi_estimate n] uses is valid for
    the registers it was created with: each qubit an instruction acts on is
    one of its n+1 qubits and each classical bit written is one of its n
    bits. *)
Theorem pi_circuit_indices_valid :
  forall n,
    0 <= n ->
    Forall (fun i =>
              Forall (fun q => 0 <= q < num_qubits (pi_circuit n)) (qubits_of i) /\
              Forall (fun c => 0 <= c < num_clbits (pi_circuit n)) (clbits_of i))
           (data (pi_circuit n)).
Proof.
  intros n Hn. rewrite (pi_circuit_layout_nonneg n Hn). cbn [num_qubits num_clbits data].
  apply Forall_forall. intros i Hi.
  rewrite !in_app_iff in Hi. cbn [In] in Hi.
  destruct Hi as [[Hi|[[Hi|[]]|[Hi|[Hi|[]]]]]|Hi].
  - destruct (qpe_pre_pattern_gates n i Hi) as [[q [-> Hq]]|[->|[c [-> Hc]]]];
      simpl; split; repeat constructor; lia.
  - subst i. simpl. split; [|constructor].
    apply Forall_forall. intros q Hq. now apply range_In in Hq.
  - pose proof (qft_dagger_pattern_local n) as Hloc.
    rewrite Forall_forall in Hloc. specialize (Hloc i Hi). split.
    + eapply Forall_impl; [|exact Hloc]. simpl. intros; lia.
    + unfold qft_dagger_pattern in Hi. apply in_app_iff in Hi.
      destruct Hi as [Hi|Hi].
      * apply in_map_iff in Hi. destruct Hi as [q [<- _]]. constructor.
      * apply in_flat_map in Hi. destruct Hi as [j [_ Hi]].
        apply in_app_iff in Hi. destruct Hi as [Hi|[<-|[]]]; [|constructor].
        apply in_map_iff in Hi. destruct Hi as [m [<- _]]. constructor.
  - subst i. simpl. split; [|constructor].
    apply Forall_forall. intros q Hq. now apply range_In in Hq.
  - apply in_map_iff in Hi. destruct Hi as [q [<- Hq]].
    apply range_In in Hq. simpl. split; repeat constructor; lia.
Qed.

Lemma pi_circuit_indices_valid_witness :
  Forall (fun i =>
            Forall (fun q => 0 <= q < num_qubits (pi_circuit 3)) (qubits_of i) /\
            Forall (fun c => 0 <= c < num_clbits (pi_circuit 3)) (clbits_of i))
         (data (pi_circuit 3)).
Proof.
  apply (pi_circuit_indices_valid 3). lia.
Defined.



(** * Further properties of the post-processing *)

Lemma int2_from_app s1 s2 acc :
  Post.int2_from acc (s1 ++ s2) =
  match Post.int2_from acc s1 with
  | Some a => Post.int2_from a s2
  | None => None
  end.
Proof.
  revert acc. induction s1 as [|a s1 IH]; intros acc; simpl; [reflexivity|].
  destruct (Post.bit_of_ascii a); [apply IH|reflexivity].
Qed.

Lemma int2_from_bounds s acc :
  is_bitstring s = true ->
  exists r, Post.int2_from acc s = Some r /\
            acc * 2 ^ Z.of_nat (String.length s) <= r
            < (acc + 1) * 2 ^ Z.of_nat (String.length s).
Proof.
  revert acc. induction s as [|a s IH]; intros acc Hs.
  - exists acc. split; [reflexivity|]. cbn [String.length]. change (2 ^ Z.of_nat 0) with 1. lia.
  - cbn [is_bitstring] in Hs. apply andb_true_iff in Hs. destruct Hs as [Ha Hs].
    cbn [Post.int2_from String.length].
    replace (Z.of_nat (S (String.length s))) with (Z.succ (Z.of_nat (String.length s))) by lia.
    rewrite Z.pow_succ_r by lia.
    pose proof (Z.pow_pos_nonneg 2 (Z.of_nat (String.length s)) ltac:(lia) ltac:(lia)) as Hpos.
    unfold Post.bit_of_ascii.
    destruct (Ascii.eqb a "0") eqn:H0.
    + destruct (IH (2 * acc + 0) Hs) as [r [Hr Hb]]. exists r. split; [exact Hr|]. nia.
    + simpl in Ha. rewrite Ha.
      destruct (IH (2 * acc + 1) Hs) as [r [Hr Hb]]. exists r. split; [exact Hr|]. nia.
Qed.

(** X9.  Read in base 2, a non-empty bit-string of length L is an integer
    in [0, 2^L); the empty string is a [ValueError]; and a further bit at the
    end doubles the value and adds the bit. *)
Theorem int2_bitstring :
  forall E s,
    is_bitstring s = true ->
    Post.int2 (E := E) "" = inl ValueError /\
    (s <> ""%string ->
     exists m,
       Post.int2 (E := E) s = inr m /\
       0 <= m < 2 ^ Z.of_nat (String.length s) /\
       Post.int2 (E := E) (s ++ "0") = inr (2 * m) /\
       Post.int2 (E := E) (s ++ "1") = inr (2 * m + 1)).
Proof.
  intros E s Hs. split; [reflexivity|]. intros Hne.
  destruct (int2_from_bounds s 0 Hs) as [m [Hm Hb]].
  exists m. split; [|split; [lia|]].
  - destruct s; [contradiction|]. unfold Post.int2. now rewrite Hm.
  - assert (Happ : forall b, exists a s', (s ++ b)%string = String a s').
    { intros b. destruct s; [contradiction|]. simpl. eauto. }
    split.
    + destruct (Happ "0"%string) as [a [s' Heq]].
      unfold Post.int2. rewrite Heq, <- Heq, int2_from_app, Hm. simpl.
      f_equal. lia.
    + destruct (Happ "1"%string) as [a [s' Heq]].
      unfold Post.int2. rewrite Heq, <- Heq, int2_from_app, Hm. reflexivity.
Qed.

Lemma int2_bitstring_witness :
  Post.int2 (E := nat) "" = inl ValueError /\
  ("0110"%string <> ""%string ->
   exists m,
     Post.int2 (E := nat) "0110" = inr m /\
     0 <= m < 2 ^ Z.of_nat (String.length "0110") /\
     Post.int2 (E := nat) ("0110" ++ "0") = inr (2 * m) /\
     Post.int2 (E := nat) ("0110" ++ "1") = inr (2 * m + 1)).
Proof.
  apply (int2_bitstring nat "0110"). reflexivity.
Defined.

(** The first of the keys with the largest count. *)
Lemma max_from_first best rest :
  exists pre c post,
    best :: rest = pre ++ (Post.max_from best rest, c) :: post /\
    Forall (fun kv => snd kv < c) pre /\
    Forall (fun kv => snd kv <= c) post.
Proof.
  revert best. induction rest as [|kv rest IH]; intros best.
  - exists [], (snd best), []. simpl. split; [now destruct best|]. split; constructor.
  - cbn [Post.max_from]. destruct (snd best <? snd kv) eqn:Hlt.
    + apply Z.ltb_lt in Hlt.
      destruct (IH kv) as (pre & c & post & Heq & Hpre & Hpost).
      exists (best :: pre), c, post. split; [simpl; now rewrite Heq|].
      split; [|exact Hpost]. constructor; [|exact Hpre].
      assert (Hkv : snd kv <= c).
      { destruct pre as [|p pre]; simpl in Heq.
        - injection Heq as -> _. simpl. lia.
        - injection Heq as <- _. inversion Hpre; subst. lia. }
      lia.
    + apply Z.ltb_ge in Hlt.
      destruct (IH best) as (pre & c & post & Heq & Hpre & Hpost).
      destruct pre as [|p pre]; simpl in Heq.
      * injection Heq as Hbest Hrest.
        exists [], c, (kv :: post). split.
        -- simpl. rewrite <- Hbest, <- Hrest. reflexivity.
        -- split; [constructor|]. constructor; [|exact Hpost].
           rewrite Hbest in Hlt. simpl in Hlt. exact Hlt.
      * injection Heq as <- Hrest.
        exists (best :: kv :: pre), c, post. split.
        -- simpl. do 2 f_equal. exact Hrest.
        -- split; [|exact Hpost]. inversion Hpre; subst.
           constructor; [assumption|]. constructor; [lia|assumption].
Qed.

(** X10.  [max(counts, key=counts.get)] breaks ties by position: the key
    it returns has the largest count, every key before it in the mapping
    has a strictly smaller count and none after it a larger one. *)
Theorem max_key_first_maximum :
  forall E counts,
    counts <> [] ->
    exists pre s c post,
      Post.max_key (E := E) counts = inr s /\
      counts = pre ++ (s, c) :: post /\
      Forall (fun kv => snd kv < c) pre /\
      Forall (fun kv => snd kv <= c) post.
Proof.
  intros E counts Hne. destruct counts as [|best rest]; [contradiction|].
  destruct (max_from_first best rest) as (pre & c & post & Heq & Hpre & Hpost).
  exists pre, (Post.max_from best rest), c, post.
  split; [reflexivity|]. split; [exact Heq|]. split; assumption.
Qed.

Lemma max_key_first_maximum_witness :
  exists pre s c post,
    Post.max_key (E := nat) [("10"%string, 3); ("01"%string, 5); ("11"%string, 5)] = inr s /\
    [("10"%string, 3); ("01"%string, 5); ("11"%string, 5)] = pre ++ (s, c) :: post /\
    Forall (fun kv => snd kv < c) pre /\
    Forall (fun kv => snd kv <= c) post.
Proof.
  apply (max_key_first_maximum nat
           [("10"%string, 3); ("01"%string, 5); ("11"%string, 5)]).
  discriminate.
Defined.

(** * What [run_job] and [get_pi_estimate] can end in *)

Lemma run_job_chain sdk circ backend shots opt w t_circ w1 qobj w2 job w3 u w4 res w5 r w' :
  transpile sdk circ backend opt w = (inr t_circ, w1) ->
  assemble sdk t_circ shots w1 = (inr qobj, w2) ->
  backend_run sdk backend qobj w2 = (inr job, w3) ->
  job_monitor sdk job w3 = (inr u, w4) ->
  job_result sdk job w4 = (inr res, w5) ->
  get_counts sdk res w5 = (r, w') ->
  run_job sdk circ backend shots opt w = (r, w').
Proof.
  intros H1 H2 H3 H4 H5 H6. unfold run_job, bind.
  rewrite H1, H2, H3, H4, H5, H6. now destruct r.
Qed.

Lemma run_job_failure_inv sdk circ backend shots opt w e w' :
  run_job sdk circ backend shots opt w = (inl e, w') ->
  sdk_failure sdk circ backend shots opt w e w'.
Proof.
  unfold run_job, bind. intros Hrun.
  destruct (transpile sdk circ backend opt w) as [[e1|tc] w1] eqn:H1.
  { injection Hrun as <- <-. now apply fail_transpile. }
  destruct (assemble sdk tc shots w1) as [[e2|q] w2] eqn:H2.
  { injection Hrun as <- <-. now apply (fail_assemble _ _ _ _ _ _ _ _ tc w1). }
  destruct (backend_run sdk backend q w2) as [[e3|j] w3] eqn:H3.
  { injection Hrun as <- <-. now apply (fail_run _ _ _ _ _ _ _ _ tc w1 q w2). }
  destruct (job_monitor sdk j w3) as [[e4|u] w4] eqn:H4.
  { injection Hrun as <- <-. now apply (fail_monitor _ _ _ _ _ _ _ _ tc w1 q w2 j w3). }
  destruct (job_result sdk j w4) as [[e5|r] w5] eqn:H5.
  { injection Hrun as <- <-.
    now apply (fail_result _ _ _ _ _ _ _ _ tc w1 q w2 j w3 u w4). }
  now apply (fail_get_counts _ _ _ _ _ _ _ _ tc w1 q w2 j w3 u w4 r w5).
Qed.

(** X11.  [run_job] adds no failure of its own and hides none: it raises
    [e] exactly when one of its SDK calls raises [e] after the earlier
    ones returned, and it returns counts exactly when the six calls return
    one after the other, the counts being those of [get_counts], asked with
    the shots and the optimisation level it was given. *)
Theorem run_job_outcomes :
  forall sdk circ backend shots opt w,
    (forall e w',
        run_job sdk circ backend shots opt w = (inl e, w') <->
        sdk_failure sdk circ backend shots opt w e w') /\
    (forall counts w',
        run_job sdk circ backend shots opt w = (inr counts, w') <->
        exists t_circ w1 qobj w2 job w3 u w4 res w5,
          transpile sdk circ backend opt w = (inr t_circ, w1) /\
          assemble sdk t_circ shots w1 = (inr qobj, w2) /\
          backend_run sdk backend qobj w2 = (inr job, w3) /\
          job_monitor sdk job w3 = (inr u, w4) /\
          job_result sdk job w4 = (inr res, w5) /\
          get_counts sdk res w5 = (inr counts, w')).
Proof.
  intros sdk circ backend shots opt w. split.
  - intros e w'. split; [apply run_job_failure_inv|apply run_job_failure].
  - intros counts w'. split; [apply run_job_success|].
    intros (tc & w1 & q & w2 & j & w3 & u & w4 & r & w5 & H1 & H2 & H3 & H4 & H5 & H6).
    exact (run_job_chain _ _ _ _ _ _ _ _ _ _ _ _ _ _ _ _ _ _ H1 H2 H3 H4 H5 H6).
Qed.



(** X13.  When the most frequent key is a bit-string of [n >= 1] bits, the
    call either raises [ZeroDivisionError] (the key reads as 0) or returns
    an estimate above 1/2 and at most 2^n/2; no count of qubits lets the
    estimate leave this range. *)
Theorem estimate_range :
  forall sdk n w counts w' s,
    1 <= n ->
    run_job sdk (pi_circuit n) (simulator sdk) 10000 0 w = (inr counts, w') ->
    Post.max_key (E := Err sdk) counts = inr s ->
    is_bitstring s = true ->
    Z.of_nat (String.length s) = n ->
    (Post.int2 (E := Err sdk) s = inr 0 /\
     get_pi_estimate sdk n w = (inl ZeroDivisionError, w')) \/
    (exists est,
        get_pi_estimate sdk n w = (inr est, w') /\
        (1 # 2 < est)%Q /\ (est <= inject_Z (2 ^ n) / 2)%Q).
Proof.
  intros sdk n w counts w' s Hn Hrun Hmax Hbits Hlen.
  assert (Hne : s <> ""%string) by (intros ->; simpl in Hlen; lia).
  destruct (int2_from_bounds s 0 Hbits) as [m [Hm Hb]].
  assert (Hint : Post.int2 (E := Err sdk) s = inr m).
  { destruct s; [contradiction|]. unfold Post.int2. now rewrite Hm. }
  rewrite Hlen in Hb.
  rewrite get_pi_estimate_split, Hrun. unfold pi_from_counts. rewrite Hmax, Hint.
  destruct (Z.eq_dec m 0) as [->|Hm0].
  - left. split; [reflexivity|]. now rewrite solve_for_pi_zero.
  - right. rewrite solve_for_pi_nonzero by exact Hm0.
    eexists. split; [reflexivity|].
    rewrite (estimate_closed_form n m ltac:(lia) Hm0).
    assert (Hpos : (0 < inject_Z (2 * m))%Q).
    { change (inject_Z 0 < inject_Z (2 * m))%Q. rewrite <- Zlt_Qlt. lia. }
    split.
    + apply Qlt_shift_div_l; [exact Hpos|].
      setoid_replace ((1 # 2) * inject_Z (2 * m))%Q with (inject_Z m)
        by (rewrite inject_Z_mult; field).
      rewrite <- Zlt_Qlt. lia.
    + apply Qle_shift_div_r; [exact Hpos|].
      setoid_replace (inject_Z (2 ^ n) / 2 * inject_Z (2 * m))%Q
        with (inject_Z (2 ^ n * m))
        by (rewrite !inject_Z_mult; field).
      rewrite <- Zle_Qle. nia.
Qed.

Lemma estimate_range_witness :
  (Post.int2 (E := nat) "01" = inr 0 /\
   get_pi_estimate (canned_sdk mostly_01) 2 0%nat = (inl ZeroDivisionError, 6%nat)) \/
  (exists est,
      get_pi_estimate (canned_sdk mostly_01) 2 0%nat = (inr est, 6%nat) /\
      (1 # 2 < est)%Q /\ (est <= inject_Z (2 ^ 2) / 2)%Q).
Proof.
  apply (estimate_range (canned_sdk mostly_01) 2 0%nat
           [("01"%string, 7000); ("11"%string, 3000)] 6%nat "01"%string).
  - lia.
  - reflexivity.
  - reflexivity.
  - reflexivity.
  - reflexivity.
Defined.

(** * How the estimate varies with the measurement *)

Lemma pow2_pos n : (0 < Py.pow2 n)%Q.
Proof. unfold Py.pow2. apply Qpower_0_lt. reflexivity. Qed.

Lemma float_pos m : 0 < m -> (0 < Py.float m)%Q.
Proof.
  intros Hm. unfold Py.float. change (inject_Z 0 < inject_Z m)%Q.
  now rewrite <- Zlt_Qlt.
Qed.

(** X14.  For a fixed number of qubits the estimate falls strictly as the
    measured integer grows; two different nonzero measurements never give
    the same estimate. *)
Theorem estimate_decreasing :
  forall E n m1 m2,
    0 < m1 < m2 ->
    exists est1 est2,
      solve_for_pi (E := E) n m1 = inr est1 /\
      solve_for_pi (E := E) n m2 = inr est2 /\
      (est2 < est1)%Q.
Proof.
  intros E n m1 m2 Hm.
  exists (1 / (2 * (Py.float m1 / Py.pow2 n)))%Q, (1 / (2 * (Py.float m2 / Py.pow2 n)))%Q.
  split; [apply solve_for_pi_nonzero; lia|].
  split; [apply solve_for_pi_nonzero; lia|].
  pose proof (pow2_pos n) as Hp.
  assert (Hpos : forall m, 0 < m -> (0 < 2 * (Py.float m / Py.pow2 n))%Q).
  { intros m Hm0. apply Qmult_lt_0_compat; [reflexivity|].
    apply Qlt_shift_div_l; [exact Hp|]. rewrite Qmult_0_l. now apply float_pos. }
  unfold Qdiv at 1 3. rewrite !Qmult_1_l.
  apply (proj1 (Qinv_lt_contravar (2 * (Py.float m1 / Py.pow2 n))
                                   (2 * (Py.float m2 / Py.pow2 n))
                                   (Hpos m1 ltac:(lia)) (Hpos m2 ltac:(lia)))).
  apply Qmult_lt_l; [reflexivity|].
  unfold Qdiv. apply Qmult_lt_compat_r; [now apply Qinv_lt_0_compat|].
  unfold Py.float. rewrite <- Zlt_Qlt. lia.
Qed.

Lemma estimate_decreasing_witness :
  exists est1 est2,
    solve_for_pi (E := nat) 8 40 = inr est1 /\
    solve_for_pi (E := nat) 8 41 = inr est2 /\
    (est2 < est1)%Q.
Proof.
  apply (estimate_decreasing nat 8 40 41). lia.
Defined.

Lemma max_from_pad best rest :
  Post.max_from ((fst best ++ "0")%string, snd best) (pad_zero rest) =
  (Post.max_from best rest ++ "0")%string.
Proof.
  revert best. induction rest as [|kv rest IH]; intros best; [reflexivity|].
  cbn [pad_zero map Post.max_from fst snd].
  destruct (snd best <? snd kv); apply IH.
Qed.

Lemma append_nonempty s t : t <> ""%string -> (s ++ t)%string <> ""%string.
Proof. destruct s; simpl; [auto|discriminate]. Qed.

(** X15.  One more qubit and one more bit, a zero, at the end of every
    outcome leave the estimate as it was: the most frequent key is the old
    one with the zero appended, it reads as twice the old integer, and
    [2m / 2^(n+1)] is [m / 2^n]. *)
Theorem padding_keeps_estimate :
  forall E n counts s m,
    0 <= n ->
    Post.max_key (E := E) counts = inr s ->
    Post.int2 (E := E) s = inr m ->
    m <> 0 ->
    exists est est',
      pi_from_counts (E := E) n counts = inr est /\
      pi_from_counts (E := E) (n + 1) (pad_zero counts) = inr est' /\
      (est == est')%Q.
Proof.
  intros E n counts s m Hn Hmax Hint Hm.
  exists (1 / (2 * (Py.float m / Py.pow2 n)))%Q,
         (1 / (2 * (Py.float (2 * m) / Py.pow2 (n + 1))))%Q.
  assert (Hs : exists a s', s = String a s' /\ Post.int2_from 0 s = Some m).
  { unfold Post.int2 in Hint. destruct s as [|a s']; [discriminate|].
    exists a, s'. split; [reflexivity|].
    destruct (Post.int2_from 0 (String a s')); [congruence|discriminate]. }
  destruct Hs as (a & s' & Hs & Hfrom). subst s.
  split; [|split].
  - unfold pi_from_counts. rewrite Hmax, Hint. now apply solve_for_pi_nonzero.
  - unfold pi_from_counts.
    destruct counts as [|best rest]; [discriminate|].
    cbn [pad_zero map Post.max_key]. fold (pad_zero rest).
    rewrite max_from_pad.
    injection Hmax as Hmax. rewrite Hmax.
    assert (Hint' : Post.int2 (E := E) (String a s' ++ "0") = inr (2 * m)).
    { unfold Post.int2. cbn [String.append].
      change (String a (s' ++ "0")) with (String a s' ++ "0")%string.
      rewrite int2_from_app, Hfrom. simpl. f_equal. lia. }
    rewrite Hint'. apply solve_for_pi_nonzero. lia.
  - rewrite (estimate_closed_form n m Hn Hm).
    rewrite (estimate_closed_form (n + 1) (2 * m) ltac:(lia) ltac:(lia)).
    rewrite Z.pow_add_r by lia. rewrite !inject_Z_mult.
    assert (Hm' : ~ (inject_Z m == 0)%Q).
    { intros Hq. apply (inject_Z_injective m 0) in Hq. contradiction. }
    change (inject_Z (2 ^ 1)) with (inject_Z 2).
    set (P := inject_Z (2 ^ n)). set (M := inject_Z m) in *.
    change (inject_Z 2) with (2 # 1)%Q.
    field. exact Hm'.
Qed.

Lemma padding_keeps_estimate_witness :
  exists est est',
    pi_from_counts (E := nat) 5 [("00101"%string, 6000); ("00110"%string, 4000)] = inr est /\
    pi_from_counts (E := nat) (5 + 1)
      (pad_zero [("00101"%string, 6000); ("00110"%string, 4000)]) = inr est' /\
    (est == est')%Q.
Proof.
  apply (padding_keeps_estimate nat 5
           [("00101"%string, 6000); ("00110"%string, 4000)] "00101"%string 5).
  - lia.
  - reflexivity.
  - reflexivity.
  - lia.
Defined.

(** * How fast the estimates approach pi *)

Section Rate.

Local Open Scope R_scope.

Lemma Q2R_inject_Z z : Q2R (inject_Z z) = IZR z.
Proof. unfold Q2R, inject_Z. simpl. field. Qed.

(** The estimate as a real number. *)
Lemma estimate_as_real n m :
  (0 <= n)%Z -> (0 < m)%Z ->
  Q2R (1 / (2 * (Py.float m / Py.pow2 n))) = IZR (2 ^ n) / (2 * IZR m).
Proof.
  intros Hn Hm.
  rewrite (Qeq_eqR _ _ (estimate_closed_form n m Hn ltac:(lia))).
  assert (Hnz : ~ (inject_Z (2 * m) == 0)%Q).
  { intros Hq. apply (inject_Z_injective (2 * m) 0) in Hq. lia. }
  rewrite (Q2R_div _ _ Hnz), !Q2R_inject_Z, mult_IZR. reflexivity.
Qed.

(** Some outcome lies within a half of [2^n * phase]. *)
Lemma near_outcome_exists n :
  (2 <= n)%Z ->
  exists k : Z, (0 <= k < 2 ^ n)%Z /\ Rabs (IZR k - IZR (2 ^ n) * phase) <= / 2.
Proof.
  intros Hn. destruct phase_enclosure as [Hlo Hhi].
  assert (Hx : 4 <= IZR (2 ^ n)).
  { change 4 with (IZR (2 ^ 2)). apply IZR_le. apply Z.pow_le_mono_r; lia. }
  set (x := IZR (2 ^ n)) in *. set (y := x * phase).
  destruct (archimed (y - / 2)) as [Hup1 Hup2].
  exists (up (y - / 2)). split.
  - split.
    + apply le_IZR. unfold y in *. nra.
    + apply lt_IZR. fold x. unfold y in *. nra.
  - unfold y in *. split_Rabs; lra.
Qed.

(** The expected measurement is within a half of [2^n * phase]. *)
Lemma expected_is_near n m :
  (2 <= n)%Z -> expected_measurement n m ->
  Rabs (IZR m - IZR (2 ^ n) * phase) <= / 2.
Proof.
  intros Hn [_ Hmin].
  destruct (near_outcome_exists n Hn) as [k [Hk Hnear]].
  specialize (Hmin k Hk).
  assert (Hx : 0 < IZR (2 ^ n)).
  { apply IZR_lt. apply Z.pow_pos_nonneg; lia. }
  assert (Hscale : forall a, Rabs (IZR a / IZR (2 ^ n) - phase) =
                             Rabs (IZR a - IZR (2 ^ n) * phase) / IZR (2 ^ n)).
  { intros a. replace (IZR a / IZR (2 ^ n) - phase)
      with ((IZR a - IZR (2 ^ n) * phase) / IZR (2 ^ n)) by (field; lra).
    unfold Rdiv. rewrite Rabs_mult, (Rabs_pos_eq (/ IZR (2 ^ n))); [reflexivity|].
    left. now apply Rinv_0_lt_compat. }
  rewrite !Hscale in Hmin.
  apply (Rmult_le_reg_r (/ IZR (2 ^ n))); [now apply Rinv_0_lt_compat|].
  eapply Rle_trans; [exact Hmin|].
  apply Rmult_le_compat_r; [left; now apply Rinv_0_lt_compat|exact Hnear].
Qed.

Lemma estimate_error_bound n m :
  (2 <= n)%Z -> expected_measurement n m ->
  (0 < m)%Z /\
  Rabs (IZR (2 ^ n) / (2 * IZR m) - PI) <= PI * PI / (IZR (2 ^ n) - PI).
Proof.
  intros Hn Hexp.
  pose proof (expected_is_near n m Hn Hexp) as Hnear.
  destruct PI_enclosure as [Hlo Hhi].
  assert (Hx : 4 <= IZR (2 ^ n)).
  { change 4 with (IZR (2 ^ 2)). apply IZR_le. apply Z.pow_le_mono_r; lia. }
  set (x := IZR (2 ^ n)) in *.
  assert (Hphase : 2 * PI * phase = 1) by (unfold phase; field; lra).
  set (d := IZR m - x * phase) in *.
  assert (Hd : - / 2 <= d <= / 2) by (split_Rabs; lra).
  assert (Hxd : x = 2 * PI * (IZR m - d)).
  { unfold d. replace (IZR m - (IZR m - x * phase)) with (x * phase) by ring.
    replace (2 * PI * (x * phase)) with (x * (2 * PI * phase)) by ring.
    rewrite Hphase. ring. }
  assert (Hmlow : x - PI <= 2 * PI * IZR m) by nra.
  assert (HmR : 0 < IZR m) by nra.
  split; [now apply lt_IZR|].
  assert (Herr : x / (2 * IZR m) - PI = - (PI * d / IZR m)).
  { rewrite Hxd at 1. field. lra. }
  rewrite Herr, Rabs_Ropp.
  assert (Hgap : 0 < x - PI) by lra.
  assert (Hup : d * (x - PI) <= / 2 * (x - PI))
    by (apply Rmult_le_compat_r; lra).
  assert (Hdown : - / 2 * (x - PI) <= d * (x - PI))
    by (apply Rmult_le_compat_r; lra).
  assert (Hup' : PI * (d * (x - PI)) <= PI * (PI * IZR m))
    by (apply Rmult_le_compat_l; lra).
  assert (Hdown' : PI * (- (PI * IZR m)) <= PI * (d * (x - PI)))
    by (apply Rmult_le_compat_l; lra).
  apply Rabs_le. split.
  - apply (Rmult_le_reg_r (IZR m * (x - PI))); [nra|].
    replace (- (PI * PI / (x - PI)) * (IZR m * (x - PI)))
      with (- (PI * PI * IZR m)) by (field; lra).
    replace (PI * d / IZR m * (IZR m * (x - PI)))
      with (PI * d * (x - PI)) by (field; lra).
    lra.
  - apply (Rmult_le_reg_r (IZR m * (x - PI))); [nra|].
    replace (PI * PI / (x - PI) * (IZR m * (x - PI)))
      with (PI * PI * IZR m) by (field; lra).
    replace (PI * d / IZR m * (IZR m * (x - PI)))
      with (PI * d * (x - PI)) by (field; lra).
    lra.
Qed.

End Rate.

(** X16.  For every count of qubits [n >= 2], the estimate computed from
    the measurement expected of a noiseless backend is returned and lies
    within pi^2 / (2^n - pi) of pi; so the error times (2^n - 4) never
    exceeds 10 and the estimates converge to pi as [n] grows. *)
Theorem estimate_error_shrinks :
  forall E n m,
    2 <= n ->
    expected_measurement n m ->
    exists est,
      solve_for_pi (E := E) n m = inr est /\
      (Rabs (Q2R est - PI) <= PI * PI / (IZR (2 ^ n) - PI))%R /\
      (Rabs (Q2R est - PI) * (IZR (2 ^ n) - 4) <= 10)%R.
Proof.
  intros E n m Hn Hexp.
  destruct (estimate_error_bound n m Hn Hexp) as [Hm Herr].
  exists (1 / (2 * (Py.float m / Py.pow2 n)))%Q.
  split; [apply solve_for_pi_nonzero; lia|].
  rewrite (estimate_as_real n m ltac:(lia) Hm).
  split; [exact Herr|].
  destruct PI_enclosure as [Hlo Hhi].
  assert (Hx : (4 <= IZR (2 ^ n))%R).
  { change 4%R with (IZR (2 ^ 2)). apply IZR_le. apply Z.pow_le_mono_r; lia. }
  set (x := IZR (2 ^ n)) in *.
  set (err := Rabs (x / (2 * IZR m) - PI)) in *.
  assert (Herr0 : (0 <= err)%R) by apply Rabs_pos.
  assert (Hmul : (err * (x - PI) <= PI * PI)%R).
  { apply (Rmult_le_reg_r (/ (x - PI))%R); [apply Rinv_0_lt_compat; lra|].
    replace (err * (x - PI) * / (x - PI))%R with err by (field; lra).
    exact Herr. }
  nra.
Qed.

Lemma estimate_error_shrinks_witness :
  exists est,
    solve_for_pi (E := nat) 10 163 = inr est /\
    (Rabs (Q2R est - PI) <= PI * PI / (IZR (2 ^ 10) - PI))%R /\
    (Rabs (Q2R est - PI) * (IZR (2 ^ 10) - 4) <= 10)%R.
Proof.
  apply (estimate_error_shrinks nat 10 163).
  - lia.
  - exact (expected_recorded 10 ltac:(vm_compute; tauto)).
Defined.

(** * The cell that runs the estimates *)

Lemma all_return_length sdk todo w ests w' :
  all_return sdk todo w ests w' -> List.length ests = List.length todo.
Proof. induction 1; simpl; congruence. Qed.

Lemma estimate_loop_spec sdk todo :
  forall st w out st' w',
    estimate_loop sdk todo st w = (out, st', w') ->
    exists done ests w1,
      all_return sdk done w ests w1 /\
      pi_estimates st' = pi_estimates st ++ ests /\
      printed st' = printed st ++ combine done ests /\
      ((out = None /\ done = todo /\ w' = w1) \/
       (exists nq rest e,
           out = Some e /\ todo = done ++ nq :: rest /\
           get_pi_estimate sdk nq w1 = (inl e, w'))).
Proof.
  induction todo as [|nq rest IH]; intros st w out st' w' Hloop; simpl in Hloop.
  - injection Hloop as <- <- <-. exists [], [], w.
    split; [constructor|]. rewrite !app_nil_r.
    split; [reflexivity|]. split; [reflexivity|]. left. repeat split.
  - destruct (get_pi_estimate sdk nq w) as [[e|est] w1] eqn:Hget.
    + injection Hloop as <- <- <-. exists [], [], w.
      split; [constructor|]. rewrite !app_nil_r.
      split; [reflexivity|]. split; [reflexivity|].
      right. exists nq, rest, e. repeat split. exact Hget.
    + destruct (IH _ _ _ _ _ Hloop) as (done & ests & w2 & Hret & Hest & Hpr & Hout).
      cbn [pi_estimates printed] in Hest, Hpr.
      exists (nq :: done), (est :: ests), w2.
      split; [econstructor; eassumption|].
      split; [rewrite Hest, <- app_assoc; reflexivity|].
      split; [rewrite Hpr, <- app_assoc; reflexivity|].
      destruct Hout as [(-> & -> & ->)|(nq' & rest' & e & -> & -> & Hfail)].
      * left. repeat split.
      * right. exists nq', rest', e. repeat split. exact Hfail.
Qed.

(** X17.  The cell goes through the qubit counts 2..12 in order and stops
    at the first one for which [get_pi_estimate] raises, with that
    exception; [pi_estimates] then holds the estimates of the counts before
    it, one printed line each, and the later counts are never run.  When
    none raises, [pi_estimates] holds eleven estimates. *)
Theorem estimate_cell_outcome :
  forall sdk w out st w',
    estimate_cell sdk w = (out, st, w') ->
    exists done ests w1,
      all_return sdk done w ests w1 /\
      pi_estimates st = ests /\
      printed st = combine done ests /\
      List.length ests = List.length done /\
      ((out = None /\ done = nqs /\ w' = w1 /\ List.length ests = 11%nat) \/
       (exists nq rest e,
           out = Some e /\ nqs = done ++ nq :: rest /\
           get_pi_estimate sdk nq w1 = (inl e, w'))).
Proof.
  intros sdk w out st w' Hcell.
  destruct (estimate_loop_spec sdk nqs _ _ _ _ _ Hcell)
    as (done & ests & w1 & Hret & Hest & Hpr & Hout).
  exists done, ests, w1.
  pose proof (all_return_length _ _ _ _ _ Hret) as Hlen.
  split; [exact Hret|]. split; [exact Hest|]. split; [exact Hpr|].
  split; [exact Hlen|].
  destruct Hout as [(-> & -> & ->)|Hfail].
  - left. repeat split. rewrite Hlen. reflexivity.
  - right. exact Hfail.
Qed.

Lemma estimate_cell_outcome_witness :
  exists done ests w1,
    all_return (faulty_sdk 8) done 0%nat ests w1 /\
    pi_estimates (mkCell [(1 / (2 * (Py.float 1 / Py.pow2 2)))%Q]
                         [(2, (1 / (2 * (Py.float 1 / Py.pow2 2)))%Q)]) = ests /\
    printed (mkCell [(1 / (2 * (Py.float 1 / Py.pow2 2)))%Q]
                    [(2, (1 / (2 * (Py.float 1 / Py.pow2 2)))%Q)]) = combine done ests /\
    List.length ests = List.length done /\
    ((Some (SdkError 8%nat) = None /\ done = nqs /\ 9%nat = w1 /\
      List.length ests = 11%nat) \/
     (exists nq rest e,
         Some (SdkError 8%nat) = Some e /\ nqs = done ++ nq :: rest /\
         get_pi_estimate (faulty_sdk 8) nq w1 = (inl e, 9%nat))).
Proof.
  apply (estimate_cell_outcome (faulty_sdk 8) 0%nat (Some (SdkError 8%nat))
           (mkCell [(1 / (2 * (Py.float 1 / Py.pow2 2)))%Q]
                   [(2, (1 / (2 * (Py.float 1 / Py.pow2 2)))%Q)]) 9%nat).
  reflexivity.
Defined.

Lemma b64_close_to_exact_witness :
  exists f q,
    solve_for_pi_b64 10 163 = Some f /\
    B64.int_truediv (2 ^ 10) (2 * 163) = Some f /\
    B64.to_Q f = Some q /\
    (Qabs (q - 1 / (2 * (Py.float 163 / Py.pow2 10)))
     <= 1 / (2 * (Py.float 163 / Py.pow2 10)) * Qpower (2 # 1) (-53))%Q.
Proof.
  apply (b64_close_to_exact 10 163).
  - vm_compute. tauto.
  - lia.
Defined.
